(** * xv6 (RISC-V) spin locks, interrupt nesting and machine-mode timer setup

    A shallow embedding of [kernel/spinlock.c] and of [timerinit] from
    [kernel/start.c].  Every C function is an interaction tree whose
    visible events are the primitive operations the function performs on
    the machine, in program order: reads and writes of structure fields,
    the [__sync_*] builtins, the interrupt-control primitives and [panic].
    A fuel-bounded executor runs a tree against a handler that answers
    the events; the handler is either the machine of one hart (the
    sequential reading of the code) or an arbitrary environment (every
    possible behaviour of the other harts and of the hardware). *)

From Stdlib Require Import ZArith List String Bool Lia Permutation.
From ITree Require Import ITree Eq.Shallow.
Import ListNotations.
Import ITreeNotations.
Local Open Scope itree_scope.
Local Open Scope Z_scope.

(* ===================================================================== *)
(** * Programs, events and their executor *)
(* ===================================================================== *)

(** [panic(msg)] prints and then loops forever: the call has no return
    value to continue with. *)
Variant panicE : Type -> Type :=
| Panic (msg : string) : panicE void.

(** One performed primitive together with the answer it received. *)
Variant event (Ev : Type -> Type) : Type :=
| Event (T : Type) (e : Ev T) (x : T).
Arguments Event {Ev T} e x.

(** The three ways a bounded run can end: the function returned, the
    kernel panicked, or the fuel ran out while it was still running. *)
Inductive outcome (Ev : Type -> Type) (W R : Type) : Type :=
| Done (r : R) (w : W) (log : list (event Ev))
| Panicked (msg : string) (w : W) (log : list (event Ev))
| Running (w : W) (log : list (event Ev)).
Arguments Done {Ev W R} r w log.
Arguments Panicked {Ev W R} msg w log.
Arguments Running {Ev W R} w log.

(** A handler answers every primitive from a world [W]. *)
Definition handler (Ev : Type -> Type) (W : Type) : Type :=
  forall T, Ev T -> W -> T * W.

(** A program over primitives [Ev] that may also panic. *)
Definition prog (Ev : Type -> Type) (R : Type) : Type := itree (Ev +' panicE) R.

Definition call {Ev : Type -> Type} {T : Type} (e : Ev T) : prog Ev T :=
  ITree.trigger (inl1 e).

Definition panic {Ev : Type -> Type} {R : Type} (msg : string) : prog Ev R :=
  ITree.bind (ITree.trigger (inr1 (Panic msg)))
             (fun v : void => match v return prog Ev R with end).

(** [emit l o]: the run that performed [l] and then went on as [o]. *)
Definition emit {Ev : Type -> Type} {W R : Type} (l : list (event Ev))
    (o : outcome Ev W R) : outcome Ev W R :=
  match o with
  | Done r w log => Done r w (l ++ log)
  | Panicked msg w log => Panicked msg w (l ++ log)
  | Running w log => Running w (l ++ log)
  end.

(** [exec h fuel t w] runs [t] from [w] for at most [fuel] nodes of the
    tree; the outcome carries the world reached and the primitives
    performed, in order, each with its answer. *)
Fixpoint exec {Ev : Type -> Type} {W R : Type} (h : handler Ev W)
    (fuel : nat) (t : prog Ev R) (w : W) : outcome Ev W R :=
  match fuel with
  | O => Running w []
  | S fuel' =>
      match observe t with
      | RetF r => Done r w []
      | TauF t' => exec h fuel' t' w
      | VisF (inl1 e) k =>
          let (x, w') := h _ e w in
          emit [Event e x] (exec h fuel' (k x) w')
      | VisF (inr1 (Panic msg)) _ => Panicked msg w []
      end
  end.

Definition finished {Ev : Type -> Type} {W R : Type} (o : outcome Ev W R) : Prop :=
  match o with Running _ _ => False | _ => True end.

(** [yields h t w o]: with enough fuel the run of [t] from [w] ends in [o],
    and [o] is a return or a panic. *)
Definition yields {Ev : Type -> Type} {W R : Type} (h : handler Ev W)
    (t : prog Ev R) (w : W) (o : outcome Ev W R) : Prop :=
  finished o /\ exists n : nat, forall fuel : nat, (n <= fuel)%nat -> exec h fuel t w = o.

(** [spins h t w]: no amount of fuel lets the run end. *)
Definition spins {Ev : Type -> Type} {W R : Type} (h : handler Ev W)
    (t : prog Ev R) (w : W) : Prop :=
  forall fuel : nat, ~ finished (exec h fuel t w).

Definition world_of {Ev : Type -> Type} {W R : Type} (o : outcome Ev W R) : W :=
  match o with Done _ w _ | Panicked _ w _ | Running w _ => w end.


(** [always h t w P]: whatever the fuel, [P] holds of the world at which
    the run of [t] from [w] stands when the fuel is spent or the run has
    ended. *)
Definition always {Ev : Type -> Type} {W R : Type} (h : handler Ev W)
    (t : prog Ev R) (w : W) (P : W -> Prop) : Prop :=
  forall n : nat, P (world_of (exec h n t w)).


(** The run returns [r] in world [w'] / panics with [msg] in world [w']. *)
Definition returns {Ev : Type -> Type} {W R : Type} (h : handler Ev W)
    (t : prog Ev R) (w : W) (r : R) (w' : W) : Prop :=
  exists log, yields h t w (Done r w' log).

Definition panics {Ev : Type -> Type} {W R : Type} (h : handler Ev W)
    (t : prog Ev R) (w : W) (msg : string) (w' : W) : Prop :=
  exists log, yields h t w (Panicked msg w' log).

(* ===================================================================== *)
(** * kernel/spinlock.c *)
(* ===================================================================== *)

(** A hart is named by the index of its [struct cpu] in [cpus[]]; a
    [struct cpu *] is [Some] hart, the null pointer is [None]. *)
Definition hartid : Type := Z.

(** A [struct spinlock *]. *)
Definition lockptr : Type := Z.

(** The primitives [spinlock.c] performs.  [spinlock.h], [proc.h],
    [riscv.h] and [defs.h] are not among the sources; the fields and the
    helpers are the ones the functions below name. *)
Variant kernE : Type -> Type :=
| IntrGet : kernE bool                           (* intr_get() *)
| IntrOff : kernE unit                           (* intr_off() *)
| IntrOn : kernE unit                            (* intr_on() *)
| MyCpu : kernE hartid                           (* mycpu() *)
| LoadNoff (c : hartid) : kernE Z                (* c->noff *)
| StoreNoff (c : hartid) (v : Z) : kernE unit    (* c->noff = v *)
| LoadIntena (c : hartid) : kernE bool           (* c->intena *)
| StoreIntena (c : hartid) (v : bool) : kernE unit
| StoreName (lk : lockptr) (s : string) : kernE unit      (* lk->name = s *)
| LoadLocked (lk : lockptr) : kernE Z                     (* lk->locked *)
| StoreLocked (lk : lockptr) (v : Z) : kernE unit         (* lk->locked = v *)
| LoadCpu (lk : lockptr) : kernE (option hartid)          (* lk->cpu *)
| StoreCpu (lk : lockptr) (c : option hartid) : kernE unit
| TestAndSet (lk : lockptr) (v : Z) : kernE Z    (* __sync_lock_test_and_set(&lk->locked, v) *)
| LockRelease (lk : lockptr) : kernE unit        (* __sync_lock_release(&lk->locked) *)
| Synchronize : kernE unit.                      (* __sync_synchronize() *)

(** [p == mycpu()] for a [struct cpu *p]: [mycpu()] is never null. *)
Definition is_cpu (p : option hartid) (c : hartid) : bool :=
  match p with Some c' => c' =? c | None => false end.

Definition initlock (lk : lockptr) (name : string) : prog kernE unit :=
  call (StoreName lk name) ;;
  call (StoreLocked lk 0) ;;
  call (StoreCpu lk None).

(** [r = (lk->locked && lk->cpu == mycpu())]: the right operand of [&&]
    is evaluated only when the lock word is non-zero. *)
Definition holding (lk : lockptr) : prog kernE bool :=
  l <- call (LoadLocked lk) ;;
  if l =? 0 then Ret false
  else
    o <- call (LoadCpu lk) ;;
    c <- call MyCpu ;;
    Ret (is_cpu o c).

Definition push_off : prog kernE unit :=
  old <- call IntrGet ;;
  call IntrOff ;;
  c <- call MyCpu ;;
  n <- call (LoadNoff c) ;;
  (if n =? 0
   then c' <- call MyCpu ;; call (StoreIntena c' old)
   else Ret tt) ;;
  c <- call MyCpu ;;
  n <- call (LoadNoff c) ;;
  call (StoreNoff c (n + 1)).

Definition pop_off : prog kernE unit :=
  c <- call MyCpu ;;
  i <- call IntrGet ;;
  (if i : bool then panic "pop_off - interruptible" else Ret tt) ;;
  n <- call (LoadNoff c) ;;
  (if n <? 1 then panic "pop_off" else Ret tt) ;;
  n <- call (LoadNoff c) ;;
  call (StoreNoff c (n - 1)) ;;
  n <- call (LoadNoff c) ;;
  if n =? 0
  then
    ie <- call (LoadIntena c) ;;
    if ie : bool then call IntrOn else Ret tt
  else Ret tt.

(** [while(__sync_lock_test_and_set(&lk->locked, 1) != 0) ;] *)
Definition spin (lk : lockptr) : prog kernE unit :=
  ITree.iter
    (fun _ : unit =>
       old <- call (TestAndSet lk 1) ;;
       if old =? 0 then Ret (inr tt) else Ret (inl tt))
    tt.

Definition acquire (lk : lockptr) : prog kernE unit :=
  push_off ;;
  h <- holding lk ;;
  (if h : bool then panic "acquire" else Ret tt) ;;
  spin lk ;;
  call Synchronize ;;
  c <- call MyCpu ;;
  call (StoreCpu lk (Some c)).

Definition release (lk : lockptr) : prog kernE unit :=
  h <- holding lk ;;
  (if negb h then panic "release" else Ret tt) ;;
  call (StoreCpu lk None) ;;
  call Synchronize ;;
  call (LockRelease lk) ;;
  pop_off.

(* ===================================================================== *)
(** * The machine one hart sees *)
(* ===================================================================== *)

(** Modelled from the spec: [struct spinlock] ([spinlock.h] is not among
    the sources) has a diagnostic [name], the lock word [locked] and the
    owner [cpu], a [struct cpu *] that is null when the lock is free. *)
Record spinlock : Type := mkSpinlock {
  name : string;
  locked : Z;
  cpu : option hartid
}.

(** Modelled from the spec: the per-core record ([struct cpu] of [proc.h],
    not among the sources) holds the nesting depth [noff], a non-negative
    integer, and [intena], the interrupt-enable state saved before the
    outermost [push_off].  [noff] is kept as a mathematical integer: the
    arithmetic of [push_off] and [pop_off] is that of the C field as long
    as the depth stays within an [int], below [2 ^ 31], which the
    statements about a depth that is raised ask of the state they start
    from. *)
Record percpu : Type := mkPercpu {
  noff : Z;
  intena : bool
}.

(** Kernel memory and, per hart, the interrupt-enable bit. *)
Record state : Type := mkState {
  locks : lockptr -> spinlock;
  cpus : hartid -> percpu;
  sie : hartid -> bool
}.

Definition upd {A : Type} (f : Z -> A) (k : Z) (v : A) : Z -> A :=
  fun x => if x =? k then v else f x.

Definition set_locked (lk : lockptr) (v : Z) (s : state) : state :=
  let l := locks s lk in
  mkState (upd (locks s) lk (mkSpinlock (name l) v (cpu l))) (cpus s) (sie s).

Definition set_cpu (lk : lockptr) (o : option hartid) (s : state) : state :=
  let l := locks s lk in
  mkState (upd (locks s) lk (mkSpinlock (name l) (locked l) o)) (cpus s) (sie s).

Definition set_name (lk : lockptr) (n : string) (s : state) : state :=
  let l := locks s lk in
  mkState (upd (locks s) lk (mkSpinlock n (locked l) (cpu l))) (cpus s) (sie s).

Definition set_noff (c : hartid) (v : Z) (s : state) : state :=
  mkState (locks s) (upd (cpus s) c (mkPercpu v (intena (cpus s c)))) (sie s).

Definition set_intena (c : hartid) (v : bool) (s : state) : state :=
  mkState (locks s) (upd (cpus s) c (mkPercpu (noff (cpus s c)) v)) (sie s).

Definition set_sie (c : hartid) (v : bool) (s : state) : state :=
  mkState (locks s) (cpus s) (upd (sie s) c v).

(** Modelled from the spec: the helpers [spinlock.c] consumes and that are
    not among the sources.  [intr_get], [intr_off] and [intr_on] query,
    clear and set the interrupt-enable state of the calling hart only;
    [mycpu] returns the calling hart's own record; the [__sync_*] builtins
    are the atomic exchange, the atomic clear and the full fence.  [me] is
    the hart that runs the code; a fence changes no value. *)
Definition machine (me : hartid) : handler kernE state :=
  fun T e =>
    match e in kernE T return state -> T * state with
    | IntrGet => fun s => (sie s me, s)
    | IntrOff => fun s => (tt, set_sie me false s)
    | IntrOn => fun s => (tt, set_sie me true s)
    | MyCpu => fun s => (me, s)
    | LoadNoff c => fun s => (noff (cpus s c), s)
    | StoreNoff c v => fun s => (tt, set_noff c v s)
    | LoadIntena c => fun s => (intena (cpus s c), s)
    | StoreIntena c v => fun s => (tt, set_intena c v s)
    | StoreName lk n => fun s => (tt, set_name lk n s)
    | LoadLocked lk => fun s => (locked (locks s lk), s)
    | StoreLocked lk v => fun s => (tt, set_locked lk v s)
    | LoadCpu lk => fun s => (cpu (locks s lk), s)
    | StoreCpu lk o => fun s => (tt, set_cpu lk o s)
    | TestAndSet lk v => fun s => (locked (locks s lk), set_locked lk v s)
    | LockRelease lk => fun s => (tt, set_locked lk 0 s)
    | Synchronize => fun s => (tt, s)
    end.

(** What [holding] computes, read off the state. *)
Definition holds (lk : lockptr) (c : hartid) (s : state) : bool :=
  negb (locked (locks s lk) =? 0) && is_cpu (cpu (locks s lk)) c.

(* ===================================================================== *)
(** * kernel/start.c: timerinit *)
(* ===================================================================== *)

(** The machine-mode control and status registers [timerinit] accesses. *)
Variant csr : Type := mstatus | mie | mscratch | mtvec.

Definition csr_eqb (a b : csr) : bool :=
  match a, b with
  | mstatus, mstatus | mie, mie | mscratch, mscratch | mtvec, mtvec => true
  | _, _ => false
  end.

(** What [memlayout.h] and [riscv.h] (not among the sources) and the
    linker fix: the addresses of the CLINT registers, the two enable bits,
    the address of [timervec] and, for each row [id], the address
    [(uint64)&timer_scratch[id][0]]. *)
Record platform : Type := mkPlatform {
  CLINT_MTIME : Z;
  CLINT_MTIMECMP : Z -> Z;
  MSTATUS_MIE : Z;
  MIE_MTIE : Z;
  timervec : Z;
  timer_scratch_at : Z -> Z
}.

(** The primitives [timerinit] performs. *)
Variant bootE : Type -> Type :=
| Rmhartid : bootE Z                                  (* r_mhartid() *)
| ReadCsr (r : csr) : bootE Z                         (* r_mstatus(), r_mie() *)
| WriteCsr (r : csr) (v : Z) : bootE unit             (* w_mscratch(v), ... *)
| Load64 (addr : Z) : bootE Z                         (* *(uint64* )addr *)
| Store64 (addr : Z) (v : Z) : bootE unit             (* *(uint64* )addr = v *)
| StoreScratch (id i : Z) (v : Z) : bootE unit.       (* timer_scratch[id][i] = v *)

(** Conversion to [int] and arithmetic in [uint64]. *)
Definition to_int (x : Z) : Z := (x + 2 ^ 31) mod 2 ^ 32 - 2 ^ 31.
Definition to_uint64 (x : Z) : Z := x mod 2 ^ 64.

Definition timerinit (p : platform) : prog bootE unit :=
  x <- call Rmhartid ;;
  let id := to_int x in
  let interval := 1000000 in
  t <- call (Load64 (CLINT_MTIME p)) ;;
  call (Store64 (CLINT_MTIMECMP p id) (to_uint64 (t + interval))) ;;
  call (StoreScratch id 3 (CLINT_MTIMECMP p id)) ;;
  call (StoreScratch id 4 interval) ;;
  call (WriteCsr mscratch (timer_scratch_at p id)) ;;
  call (WriteCsr mtvec (timervec p)) ;;
  x <- call (ReadCsr mstatus) ;;
  call (WriteCsr mstatus (Z.lor x (MSTATUS_MIE p))) ;;
  x <- call (ReadCsr mie) ;;
  call (WriteCsr mie (Z.lor x (MIE_MTIE p))).

(** Physical memory by address (the CLINT registers live there), the
    array [timer_scratch[NCPU][5]] and the registers of the running hart.
    The array is a C object of its own: a store into it changes no
    device register. *)
Record mstate : Type := mkMstate {
  mem : Z -> Z;
  timer_scratch : Z -> Z -> Z;
  csrs : csr -> Z
}.

(** Modelled from the spec: the register accessors of [riscv.h] (not
    among the sources) read and write the named register of the hart that
    runs the code, [r_mhartid()] gives that hart's identifier, and a cast
    to [uint64 *] reads or writes the device register at that address. *)
Definition boot_machine (me : hartid) : handler bootE mstate :=
  fun T e =>
    match e in bootE T return mstate -> T * mstate with
    | Rmhartid => fun s => (me, s)
    | ReadCsr r => fun s => (csrs s r, s)
    | WriteCsr r v => fun s =>
        (tt, mkMstate (mem s) (timer_scratch s)
                      (fun r' => if csr_eqb r' r then v else csrs s r'))
    | Load64 a => fun s => (mem s a, s)
    | Store64 a v => fun s =>
        (tt, mkMstate (upd (mem s) a v) (timer_scratch s) (csrs s))
    | StoreScratch id i v => fun s =>
        (tt, mkMstate (mem s) (upd (timer_scratch s) id (upd (timer_scratch s id) i v))
                      (csrs s))
    end.

(* ===================================================================== *)
(** * Reading a log *)
(* ===================================================================== *)

(** The primitive reads or writes a field of the lock [lk]. *)
Definition touches (lk : lockptr) (ev : event kernE) : bool :=
  match ev with
  | Event e _ =>
      match e with
      | StoreName l _ | LoadLocked l | StoreLocked l _ | LoadCpu l
      | StoreCpu l _ | TestAndSet l _ | LockRelease l => l =? lk
      | _ => false
      end
  end.

(** The primitive is an atomic exchange. *)
Definition is_exchange (ev : event kernE) : bool :=
  match ev with
  | Event e _ => match e with TestAndSet _ _ => true | _ => false end
  end.

(** An exchange on [lk] that wrote 1 and saw the lock word already set. *)
Definition lost_exchange (lk : lockptr) (ev : event kernE) : Prop :=
  exists v : Z, v <> 0 /\ ev = Event (TestAndSet lk 1) v.

(** The log ends by storing into [c->noff] the value just read from it
    plus one. *)
Definition raises_nesting (l : list (event kernE)) : Prop :=
  exists l0 c n, l = l0 ++ [Event (LoadNoff c) n; Event (StoreNoff c (n + 1)) tt].

(** The log of one evaluation of [holding(lk)] that answered [b]: the
    lock word is read and, when it is set, the owner and [mycpu()]. *)
Definition holding_log (lk : lockptr) (b : bool) (l : list (event kernE)) : Prop :=
  (b = false /\ l = [Event (LoadLocked lk) 0]) \/
  (exists v o c, v <> 0 /\
     l = [Event (LoadLocked lk) v; Event (LoadCpu lk) o; Event MyCpu c] /\
     b = is_cpu o c).

(** The log stores into [c->noff] the value just read from it minus one;
    what follows is the test of the new depth and, at depth zero, of the
    saved state, with [intr_on()] when that state was enabled. *)
Definition lowers_nesting (l : list (event kernE)) : Prop :=
  exists l0 c n l1,
    l = l0 ++ [Event (LoadNoff c) n; Event (StoreNoff c (n - 1)) tt] ++ l1 /\
    (l1 = [Event (LoadNoff c) 0; Event (LoadIntena c) true; Event IntrOn tt] \/
     l1 = [Event (LoadNoff c) 0; Event (LoadIntena c) false] \/
     exists n', n' <> 0 /\ l1 = [Event (LoadNoff c) n']).

(* ===================================================================== *)
(** * Sequences of calls and example machines *)
(* ===================================================================== *)

(** A caller that disables preemption without taking a lock issues a
    sequence of [push_off()] and [pop_off()] calls. *)
Variant nest_op : Type := Push | Pop.

Definition nest_call (o : nest_op) : prog kernE unit :=
  match o with Push => push_off | Pop => pop_off end.

Fixpoint nest_calls (ops : list nest_op) : prog kernE unit :=
  match ops with
  | [] => Ret tt
  | o :: rest => nest_call o ;; nest_calls rest
  end.

(** The sequence is balanced above depth [d]: no [Pop] finds the depth
    at zero, and the depth ends at zero. *)
Fixpoint balanced_from (d : nat) (ops : list nest_op) : bool :=
  match ops with
  | [] => Nat.eqb d 0
  | Push :: rest => balanced_from (S d) rest
  | Pop :: rest =>
      match d with
      | O => false
      | S d' => balanced_from d' rest
      end
  end.

Definition balanced (ops : list nest_op) : bool := balanced_from 0 ops.

(** The calls of [spinlock.c]. *)
Variant op : Type :=
| Initlock (lk : lockptr) (nm : string)
| Acquire (lk : lockptr)
| Release (lk : lockptr)
| Holding (lk : lockptr)
| PushOff
| PopOff.

Definition op_call (o : op) : prog kernE unit :=
  match o with
  | Initlock lk nm => initlock lk nm
  | Acquire lk => acquire lk
  | Release lk => release lk
  | Holding lk => holding lk ;; Ret tt
  | PushOff => push_off
  | PopOff => pop_off
  end.



(** Hart [c] is inside the critical section of [lk]: the lock word is set
    and the owner is [c]. *)
Definition held (lk : lockptr) (c : hartid) (s : state) : Prop :=
  locked (locks s lk) <> 0 /\ cpu (locks s lk) = Some c.

(** The interrupt-enable state that is in force around the outermost
    critical section: the live bit at depth zero, the saved one inside. *)
Definition ambient (c : hartid) (s : state) : bool :=
  if noff (cpus s c) =? 0 then sie s c else intena (cpus s c).

(** A freshly loaded kernel image: every lock zeroed, every hart at depth
    zero with interrupts enabled. *)
Definition zeroed : state :=
  mkState (fun _ => mkSpinlock "" 0 None) (fun _ => mkPercpu 0 false) (fun _ => true).

(** The zeroed machine after hart 2 has acquired the lock at address 7. *)
Definition held_by_2 : state :=
  world_of (exec (machine 2) 30 (acquire 7) zeroed).

(** The zeroed machine after hart 0 has initialised the lock at 7. *)
Definition fresh : state :=
  world_of (exec (machine 0) 10 (initlock 7 "tickslock") zeroed).






(** The values of the QEMU [virt] board that xv6 runs on, with [timervec]
    and [timer_scratch] placed in kernel memory. *)
Definition qemu_virt : platform :=
  mkPlatform 0x200bff8 (fun id => 0x2004000 + 8 * id) 8 128
             0x80005ff0 (fun id => 0x80009040 + 40 * id).

(** Machine-mode state at reset: the timer has counted to 5000. *)
Definition at_reset : mstate :=
  mkMstate (fun a => if a =? 0x200bff8 then 5000 else 0) (fun _ _ => 0) (fun _ => 0).



(** The order of one call of [release(lk)] that ended in [o]: the reads of
    [holding]; on [false] the panic, nothing written; on [true] the owner
    cleared, the fence, the atomic clear, and last a run of [pop_off] to
    its end, which when it returns has lowered the depth and touched no
    field of the lock. *)
Definition release_ordered {W : Type} (h : handler kernE W) (lk : lockptr)
    (o : outcome kernE W unit) : Prop :=
  exists b l_hold,
    holding_log lk b l_hold /\
    ((b = false /\ exists w', o = Panicked "release" w' l_hold) \/
     (b = true /\
      exists o_pop,
        (exists n2 w4, exec h n2 pop_off w4 = o_pop) /\
        finished o_pop /\
        o = emit (l_hold ++ [Event (StoreCpu lk None) tt; Event Synchronize tt;
                             Event (LockRelease lk) tt]) o_pop /\
        forall w' l_pop, o_pop = Done tt w' l_pop ->
          lowers_nesting l_pop /\
          Forall (fun ev => touches lk ev = false) l_pop)).

(* ===================================================================== *)
(** * Device numbers (the header with [struct file] and [struct inode]) *)
(* ===================================================================== *)

(** [(uint)x]: [uint] is [unsigned int], 32 bits wide. *)
Definition to_uint (x : Z) : Z := x mod 2 ^ 32.

(** [#define major(dev)  ((dev) >> 16 & 0xFFFF)] *)
Definition major (dev : Z) : Z := Z.land (Z.shiftr dev 16) 0xFFFF.

(** [#define minor(dev)  ((dev) & 0xFFFF)] *)
Definition minor (dev : Z) : Z := Z.land dev 0xFFFF.

(** [#define mkdev(m,n)  ((uint)((m)<<16| (n)))] *)
Definition mkdev (m n : Z) : Z := to_uint (Z.lor (Z.shiftl m 16) n).

(* ===================================================================== *)
(** * Callers that take several locks *)
(* ===================================================================== *)

(** [acquire(l1); acquire(l2); ...] and [release(l1); release(l2); ...]. *)
Fixpoint acquire_all (ls : list lockptr) : prog kernE unit :=
  match ls with
  | [] => Ret tt
  | l :: rest => acquire l ;; acquire_all rest
  end.

Fixpoint release_all (ls : list lockptr) : prog kernE unit :=
  match ls with
  | [] => Ret tt
  | l :: rest => release l ;; release_all rest
  end.

(** The lock a call may write. *)
Definition op_lock (o : op) : option lockptr :=
  match o with
  | Initlock l _ | Acquire l | Release l => Some l
  | Holding _ | PushOff | PopOff => None
  end.

(** State [s'] differs from [s] at most in the record and interrupt bit
    of hart [h] and in the lock [o] may write. *)
Definition local_to (h : hartid) (o : op) (s s' : state) : Prop :=
  (forall c', c' <> h -> cpus s' c' = cpus s c' /\ sie s' c' = sie s c') /\
  (forall l, op_lock o <> Some l -> locks s' l = locks s l).

(** The discipline of [push_off] and [pop_off] on hart [c]: the nesting
    depth is a non-negative [int], and interrupts are off whenever it is
    positive. *)
Definition disciplined (c : hartid) (s : state) : Prop :=
  0 <= noff (cpus s c) < 2 ^ 31 /\ (0 < noff (cpus s c) -> sie s c = false).

(** The zeroed machine after hart 2 has acquired the lock at 7 and then
    enabled interrupts, against the discipline. *)
Definition careless : state := set_sie 2 true held_by_2.

(* ===================================================================== *)
(** * kernel/start.c: start *)
(* ===================================================================== *)

(** The registers [start] itself accesses besides [mstatus]; [tp] is the
    thread pointer, [s_ie] the supervisor interrupt-enable register. *)
Variant sreg : Type :=
| mepc | satp | medeleg | mideleg | s_ie | pmpaddr0 | pmpcfg0 | tp.

Definition sreg_eqb (a b : sreg) : bool :=
  match a, b with
  | mepc, mepc | satp, satp | medeleg, medeleg | mideleg, mideleg
  | s_ie, s_ie | pmpaddr0, pmpaddr0 | pmpcfg0, pmpcfg0 | tp, tp => true
  | _, _ => false
  end.

(** What [start] performs beyond the primitives of [timerinit]. *)
Variant supE : Type -> Type :=
| ReadReg (r : sreg) : supE Z                  (* r_sie() *)
| WriteReg (r : sreg) (v : Z) : supE unit      (* w_mepc(v), w_satp(v), ..., w_tp(v) *)
| Mret : supE unit.                            (* asm volatile("mret") *)

Definition startE : Type -> Type := bootE +' supE.

(** What [riscv.h] (not among the sources) and the linker fix for [start]:
    the previous-privilege field of [mstatus] and its supervisor value, the
    three supervisor interrupt-enable bits, and the address of [main]. *)
Record boot_consts : Type := mkBootConsts {
  MSTATUS_MPP_MASK : Z;
  MSTATUS_MPP_S : Z;
  SIE_SEIE : Z;
  SIE_STIE : Z;
  SIE_SSIE : Z;
  main : Z
}.

(** A call of a function written over the primitives of [timerinit], made
    from [start]. *)
Definition lift {R : Type} (t : prog bootE R) : prog startE R :=
  translate
    (fun T (e : (bootE +' panicE) T) =>
       match e return (startE +' panicE) T with
       | inl1 b => inl1 (inl1 b)
       | inr1 q => inr1 q
       end) t.

Definition start (k : boot_consts) (p : platform) : prog startE unit :=
  x <- call (inl1 (ReadCsr mstatus)) ;;
  let x := Z.land x (Z.lnot (MSTATUS_MPP_MASK k)) in
  let x := Z.lor x (MSTATUS_MPP_S k) in
  call (inl1 (WriteCsr mstatus x)) ;;
  call (inr1 (WriteReg mepc (main k))) ;;
  call (inr1 (WriteReg satp 0)) ;;
  call (inr1 (WriteReg medeleg 0xffff)) ;;
  call (inr1 (WriteReg mideleg 0xffff)) ;;
  y <- call (inr1 (ReadReg s_ie)) ;;
  call (inr1 (WriteReg s_ie
          (Z.lor (Z.lor (Z.lor y (SIE_SEIE k)) (SIE_STIE k)) (SIE_SSIE k)))) ;;
  call (inr1 (WriteReg pmpaddr0 0x3fffffffffffff)) ;;
  call (inr1 (WriteReg pmpcfg0 0xf)) ;;
  lift (timerinit p) ;;
  h <- call (inl1 Rmhartid) ;;
  let id := to_int h in
  call (inr1 (WriteReg tp (to_uint64 id))) ;;
  call (inr1 Mret).

(** The machine [start] runs on: that of [timerinit] and the further
    registers. *)
Record sstate : Type := mkSstate {
  base : mstate;
  regs : sreg -> Z
}.

(** Modelled from the spec: the register accessors of [riscv.h] (not
    among the sources) read and write the named register of the running
    hart.  [mret] is the last primitive of [start]; what the hart does
    after it is outside this model, which leaves the registers as they
    stand. *)
Definition start_machine (me : hartid) : handler startE sstate :=
  fun T e =>
    match e return sstate -> T * sstate with
    | inl1 b => fun s =>
        let (x, m) := boot_machine me _ b (base s) in
        (x, mkSstate m (regs s))
    | inr1 u =>
        match u in supE T return sstate -> T * sstate with
        | ReadReg r => fun s => (regs s r, s)
        | WriteReg r v => fun s =>
            (tt, mkSstate (base s) (fun r' => if sreg_eqb r' r then v else regs s r'))
        | Mret => fun s => (tt, s)
        end
    end.

(** The constants of the RISC-V privileged architecture, with [main]
    placed in kernel memory. *)
Definition riscv_consts : boot_consts :=
  mkBootConsts 0x1800 0x800 0x200 0x20 0x2 0x80000ec6.

(** A hart out of reset: the previous-privilege field of [mstatus] reads
    machine mode, and one supervisor enable bit is already set. *)
Definition cold : sstate :=
  mkSstate (mkMstate (mem at_reset) (timer_scratch at_reset)
                     (fun r => if csr_eqb r mstatus then 0x1800 else 0))
           (fun r => if sreg_eqb r s_ie then 0x100 else 0).

(* ===================================================================== *)
(** * General facts about runs *)
(* ===================================================================== *)

Section Runs.
Context {Ev : Type -> Type} {W : Type}.
Variable h : handler Ev W.

Lemma emit_nil R (o : outcome Ev W R) : emit [] o = o.
Proof. destruct o; reflexivity. Qed.

Lemma emit_emit R (l1 l2 : list (event Ev)) (o : outcome Ev W R) :
  emit l1 (emit l2 o) = emit (l1 ++ l2) o.
Proof. destruct o; cbn; rewrite app_assoc; reflexivity. Qed.

Lemma finished_emit R (l : list (event Ev)) (o : outcome Ev W R) :
  finished (emit l o) <-> finished o.
Proof. destruct o; cbn; tauto. Qed.

Lemma exec_S R (t : prog Ev R) n w :
  exec h (S n) t w =
  match observe t with
  | RetF r => Done r w []
  | TauF t' => exec h n t' w
  | VisF (inl1 e) k => let (x, w') := h _ e w in emit [Event e x] (exec h n (k x) w')
  | VisF (inr1 (Panic msg)) _ => Panicked msg w []
  end.
Proof. reflexivity. Qed.

(** More fuel does not change a run that has ended. *)
Lemma exec_step R (t : prog Ev R) : forall n w,
  finished (exec h n t w) -> exec h (S n) t w = exec h n t w.
Proof.
  intros n; revert t; induction n as [|n IH]; intros t w F.
  - contradiction.
  - rewrite (exec_S _ t (S n)). rewrite (exec_S _ t n) in F |- *.
    destruct (observe t) as [r|t'|X e k]; auto.
    destruct e as [e|[msg]]; auto.
    destruct (h X e w) as [x w'].
    apply finished_emit in F. rewrite (IH _ _ F). reflexivity.
Qed.

Lemma exec_mono R (t : prog Ev R) n m w :
  finished (exec h n t w) -> (n <= m)%nat -> exec h m t w = exec h n t w.
Proof.
  intros F L. induction L as [|m L IH]; auto.
  rewrite exec_step; rewrite IH; auto.
Qed.

(** Running [t ;; k]: the nodes of [t], then those of [k]. *)
Lemma exec_bind_Done R R' (t : prog Ev R) (k : R -> prog Ev R') : forall n m w r w1 l1,
  exec h n t w = Done r w1 l1 ->
  finished (exec h m (k r) w1) ->
  exec h (n + m) (ITree.bind t k) w = emit l1 (exec h m (k r) w1).
Proof.
  intros n; revert t; induction n as [|n IH]; intros t m w r w1 l1 H F.
  - discriminate.
  - rewrite exec_S in H. cbn [Nat.add]. rewrite exec_S, observe_bind.
    destruct (observe t) as [r0|t'|X e k0].
    + inversion H; subst. rewrite emit_nil, <- exec_S.
      apply exec_mono; [assumption | lia].
    + cbn. apply IH; assumption.
    + destruct e as [e|p]; cbn in H |- *; [|destruct p; discriminate].
      destruct (h X e w) as [x w'].
      destruct (exec h n (k0 x) w') as [r' w2 l2| |] eqn:E; try discriminate.
      cbn in H. inversion H; subst.
      rewrite (IH _ _ _ _ _ _ E F). rewrite emit_emit. reflexivity.
Qed.

Lemma exec_bind_Panicked R R' (t : prog Ev R) (k : R -> prog Ev R') : forall n w msg w1 l1,
  exec h n t w = Panicked msg w1 l1 ->
  exec h n (ITree.bind t k) w = Panicked msg w1 l1.
Proof.
  intros n; revert t; induction n as [|n IH]; intros t w msg w1 l1 H.
  - discriminate.
  - rewrite exec_S in *. rewrite observe_bind.
    destruct (observe t) as [r0|t'|X e k0].
    + discriminate.
    + cbn. apply IH; assumption.
    + destruct e as [e|p]; cbn in H |- *.
      * destruct (h X e w) as [x w'].
        destruct (exec h n (k0 x) w') as [|m' w2 l2|] eqn:E; try discriminate.
        rewrite (IH _ _ _ _ _ E). cbn in H |- *. inversion H; reflexivity.
      * destruct p. inversion H; reflexivity.
Qed.

(** A run of [t ;; k] that ended went through a run of [t]. *)
Lemma exec_bind_inv R R' (t : prog Ev R) (k : R -> prog Ev R') : forall n w,
  finished (exec h n (ITree.bind t k) w) ->
  (exists msg w1 l1, exec h n t w = Panicked msg w1 l1 /\
                     exec h n (ITree.bind t k) w = Panicked msg w1 l1) \/
  (exists r w1 l1 m, exec h n t w = Done r w1 l1 /\ (m <= n)%nat /\
                   finished (exec h m (k r) w1) /\
                   exec h n (ITree.bind t k) w = emit l1 (exec h m (k r) w1)).
Proof.
  intros n; revert t; induction n as [|n IH]; intros t w F.
  - contradiction.
  - rewrite exec_S in F. rewrite !exec_S. rewrite observe_bind in F |- *.
    destruct (observe t) as [r0|t'|X e k0].
    + right. exists r0, w, [], (S n). rewrite emit_nil, exec_S.
      repeat split; auto.
    + cbn in F |- *. destruct (IH _ _ F) as [(msg & w1 & l1 & H1 & H2)|(r & w1 & l1 & m & H1 & L & F2 & H2)].
      * left. exists msg, w1, l1. auto.
      * right. exists r, w1, l1, m. repeat split; auto.
    + destruct e as [e|p]; cbn in F |- *.
      * destruct (h X e w) as [x w']. apply finished_emit in F.
        destruct (IH _ _ F) as [(msg & w1 & l1 & H1 & H2)|(r & w1 & l1 & m & H1 & L & F2 & H2)].
        -- left. exists msg, w1, ([Event e x] ++ l1). rewrite H1, H2. auto.
        -- right. exists r, w1, ([Event e x] ++ l1), m. rewrite H1, H2, emit_emit.
           repeat split; auto.
      * destruct p as [msg]. left. exists msg, w, []. auto.
Qed.




(** One node at a time. *)
Lemma exec_Ret R (r : R) n w : exec h (S n) (Ret r) w = Done r w [].
Proof. reflexivity. Qed.

Lemma exec_bind_Ret R R' (r : R) (k : R -> prog Ev R') n w :
  exec h n (ITree.bind (Ret r) k) w = exec h n (k r) w.
Proof. destruct n; reflexivity. Qed.

Lemma exec_bind_call R T (e : Ev T) (k : T -> prog Ev R) n w :
  exec h (S n) (ITree.bind (call e) k) w =
  emit [Event e (fst (h _ e w))] (exec h n (k (fst (h _ e w))) (snd (h _ e w))).
Proof.
  rewrite exec_S. cbn. destruct (h T e w) as [x w']. cbn [fst snd].
  f_equal. apply (exec_bind_Ret _ _ x k).
Qed.

Lemma exec_call T (e : Ev T) n w :
  exec h (S (S n)) (call e) w = Done (fst (h _ e w)) (snd (h _ e w)) [Event e (fst (h _ e w))].
Proof. rewrite exec_S. cbn. destruct (h T e w) as [x w']. reflexivity. Qed.

Lemma exec_bind_panic R R' (msg : string) (k : R -> prog Ev R') n w :
  exec h (S n) (ITree.bind (panic msg) k) w = Panicked msg w [].
Proof. reflexivity. Qed.

Lemma exec_panic R (msg : string) n w :
  exec h (S n) (panic msg : prog Ev R) w = Panicked msg w [].
Proof. reflexivity. Qed.

Lemma exec_bind_bind R1 R2 R3 (t : prog Ev R1) (f : R1 -> prog Ev R2) (g : R2 -> prog Ev R3) :
  forall n w,
  exec h n (ITree.bind (ITree.bind t f) g) w =
  exec h n (ITree.bind t (fun x => ITree.bind (f x) g)) w.
Proof.
  intros n; revert t; induction n as [|n IH]; intros t w; [reflexivity|].
  rewrite !exec_S, !observe_bind.
  destruct (observe t) as [r|t'|X e k]; cbn.
  - rewrite <- !exec_S. reflexivity.
  - apply IH.
  - destruct e as [e|p]; [|reflexivity].
    destruct (h X e w) as [x w']. rewrite IH. reflexivity.
Qed.

(** Enough fuel: the outcome is unique and composes along [;;]. *)
Lemma yields_exec R (t : prog Ev R) w o n :
  yields h t w o -> finished (exec h n t w) -> exec h n t w = o.
Proof.
  intros [_ [m Hm]] F.
  rewrite <- (Hm (Nat.max n m)) by lia.
  symmetry. apply exec_mono; [assumption | lia].
Qed.

Lemma yields_det R (t : prog Ev R) w o1 o2 :
  yields h t w o1 -> yields h t w o2 -> o1 = o2.
Proof.
  intros [F1 [n1 H1]] [F2 [n2 H2]].
  rewrite <- (H1 (Nat.max n1 n2)), <- (H2 (Nat.max n1 n2)) by lia. reflexivity.
Qed.

Lemma yields_intro R (t : prog Ev R) w o n :
  exec h n t w = o -> finished o -> yields h t w o.
Proof.
  intros E F. split; [assumption|]. exists n. intros fuel L.
  rewrite <- E. apply exec_mono; [rewrite E; assumption | assumption].
Qed.

Lemma yields_bind R R' (t : prog Ev R) (k : R -> prog Ev R') w r w1 l1 o :
  yields h t w (Done r w1 l1) -> yields h (k r) w1 o ->
  yields h (ITree.bind t k) w (emit l1 o).
Proof.
  intros [_ [n Hn]] [F [m Hm]].
  apply (yields_intro _ _ _ _ (n + m)).
  - rewrite (exec_bind_Done _ _ t k n m w r w1 l1).
    + rewrite Hm by lia. reflexivity.
    + apply Hn; lia.
    + rewrite Hm by lia. assumption.
  - apply finished_emit; assumption.
Qed.

Lemma yields_bind_panic R R' (t : prog Ev R) (k : R -> prog Ev R') w msg w1 l1 :
  yields h t w (Panicked msg w1 l1) ->
  yields h (ITree.bind t k) w (Panicked msg w1 l1).
Proof.
  intros [_ [n Hn]].
  apply (yields_intro _ _ _ _ n); [|exact I].
  apply exec_bind_Panicked. apply Hn; lia.
Qed.

Lemma returns_bind R R' (t : prog Ev R) (k : R -> prog Ev R') w r w1 r' w2 :
  returns h t w r w1 -> returns h (k r) w1 r' w2 ->
  returns h (ITree.bind t k) w r' w2.
Proof.
  intros [l1 H1] [l2 H2]. exists (l1 ++ l2).
  apply (yields_bind _ _ t k _ _ _ _ _ H1 H2).
Qed.

Lemma panics_bind R R' (t : prog Ev R) (k : R -> prog Ev R') w r w1 msg w2 :
  returns h t w r w1 -> panics h (k r) w1 msg w2 ->
  panics h (ITree.bind t k) w msg w2.
Proof.
  intros [l1 H1] [l2 H2]. exists (l1 ++ l2).
  apply (yields_bind _ _ t k _ _ _ _ _ H1 H2).
Qed.

Lemma panics_bind_l R R' (t : prog Ev R) (k : R -> prog Ev R') w msg w1 :
  panics h t w msg w1 -> panics h (ITree.bind t k) w msg w1.
Proof.
  intros [l1 H1]. exists l1. apply yields_bind_panic; assumption.
Qed.

Lemma returns_Ret R (r : R) w : returns h (Ret r) w r w.
Proof. exists []. apply (yields_intro _ _ _ _ 1%nat); [reflexivity | exact I]. Qed.

Lemma panics_panic R (msg : string) w : panics h (panic msg : prog Ev R) w msg w.
Proof. exists []. apply (yields_intro _ _ _ _ 1%nat); [reflexivity | exact I]. Qed.

Lemma returns_det R (t : prog Ev R) w r1 w1 r2 w2 :
  returns h t w r1 w1 -> returns h t w r2 w2 -> r1 = r2 /\ w1 = w2.
Proof.
  intros [l1 H1] [l2 H2]. pose proof (yields_det _ _ _ _ _ H1 H2) as E.
  inversion E; auto.
Qed.

(** Rules for [always] and [ensures], one for each shape of program. *)
Lemma always_Ret R (r : R) w (P : W -> Prop) :
  P w -> always h (Ret r) w P.
Proof. intros H [|n]; exact H. Qed.

Lemma always_panic R (msg : string) w (P : W -> Prop) :
  P w -> always h (panic msg : prog Ev R) w P.
Proof. intros H [|n]; exact H. Qed.

Lemma always_bind_panic R R' (msg : string) (k : R -> prog Ev R') w (P : W -> Prop) :
  P w -> always h (ITree.bind (panic msg) k) w P.
Proof. intros H [|n]; exact H. Qed.

Lemma world_of_emit R l (o : outcome Ev W R) : world_of (emit l o) = world_of o.
Proof. destruct o; reflexivity. Qed.

Lemma always_call T (e : Ev T) w (P : W -> Prop) :
  P w -> P (snd (h _ e w)) -> always h (call e) w P.
Proof.
  intros H1 H2 [|[|n]]; [exact H1 | |].
  - rewrite exec_S. cbn. destruct (h T e w) as [x w']. exact H2.
  - rewrite exec_call. exact H2.
Qed.

Lemma always_bind_call R T (e : Ev T) (k : T -> prog Ev R) w (P : W -> Prop) :
  P w -> always h (k (fst (h _ e w))) (snd (h _ e w)) P ->
  always h (ITree.bind (call e) k) w P.
Proof.
  intros H1 H2 [|n]; [exact H1|].
  rewrite exec_bind_call, world_of_emit. apply H2.
Qed.

Lemma always_bind_Ret R R' (r : R) (k : R -> prog Ev R') w (P : W -> Prop) :
  always h (k r) w P -> always h (ITree.bind (Ret r) k) w P.
Proof. intros H n. rewrite exec_bind_Ret. apply H. Qed.

Lemma always_bind_bind R1 R2 R3 (t : prog Ev R1) (f : R1 -> prog Ev R2)
    (g : R2 -> prog Ev R3) w (P : W -> Prop) :
  always h (ITree.bind t (fun x => ITree.bind (f x) g)) w P ->
  always h (ITree.bind (ITree.bind t f) g) w P.
Proof. intros H n. rewrite exec_bind_bind. apply H. Qed.

Lemma exec_bind_split R R' (t : prog Ev R) (k : R -> prog Ev R') : forall n w,
  match exec h n t w with
  | Done r w1 l1 =>
      exists m, (m <= n)%nat /\ exec h n (ITree.bind t k) w = emit l1 (exec h m (k r) w1)
  | Panicked msg w1 l1 => exec h n (ITree.bind t k) w = Panicked msg w1 l1
  | Running w1 l1 => exec h n (ITree.bind t k) w = Running w1 l1
  end.
Proof.
  intros n; revert t; induction n as [|n IH]; intros t w; [reflexivity|].
  rewrite !exec_S, observe_bind.
  destruct (observe t) as [r0|t'|X e k0].
  - exists (S n). rewrite emit_nil, exec_S. auto.
  - cbn. specialize (IH t' w). destruct (exec h n t' w); auto.
    destruct IH as (m & L & E). exists m. auto.
  - destruct e as [e|p]; cbn.
    + destruct (h X e w) as [x w']. specialize (IH (k0 x) w').
      destruct (exec h n (k0 x) w'); cbn [emit].
      * destruct IH as (m & L & E). exists m. rewrite E, emit_emit. auto.
      * rewrite IH. reflexivity.
      * rewrite IH. reflexivity.
    + destruct p. reflexivity.
Qed.

Lemma always_bind R R' (t : prog Ev R) (k : R -> prog Ev R') w (P : W -> Prop) :
  always h t w P ->
  (forall n r w1 l1, exec h n t w = Done r w1 l1 -> always h (k r) w1 P) ->
  always h (ITree.bind t k) w P.
Proof.
  intros H1 H2 n. pose proof (exec_bind_split _ _ t k n w) as S. specialize (H1 n).
  destruct (exec h n t w) as [r w1 l1|msg w1 l1|w1 l1] eqn:E.
  - destruct S as (m & _ & ->). rewrite world_of_emit. eapply H2; eassumption.
  - rewrite S. exact H1.
  - rewrite S. exact H1.
Qed.







Lemma always_impl R (t : prog Ev R) w (P Q : W -> Prop) :
  (forall w', P w' -> Q w') -> always h t w P -> always h t w Q.
Proof. intros H A n. apply H, A. Qed.

End Runs.

(* ===================================================================== *)
(** * Runs of the spinlock functions against any environment *)
(* ===================================================================== *)

(* Advance the run in [F : finished (exec h n t w)] and in the goal by one
   node of [t], naming the answer of the environment. *)
Ltac run_call F :=
  match type of F with
  | finished (exec ?h ?n (ITree.bind (call ?e) _) ?w) =>
      destruct n as [|n]; [contradiction F|];
      rewrite exec_bind_call in F |- *;
      destruct (h _ e w) as [? ?]; cbn [fst snd] in F |- *;
      apply finished_emit in F
  | finished (exec ?h ?n (call ?e) ?w) =>
      destruct n as [|[|n]]; [contradiction F| |];
      [rewrite exec_S in F; cbn in F; destruct (h _ e w); contradiction F|];
      rewrite exec_call in F |- *;
      destruct (h _ e w) as [? ?]; cbn [fst snd] in F |- *
  | finished (exec ?h ?n (ITree.bind (ITree.bind _ _) _) ?w) =>
      rewrite exec_bind_bind in F |- *
  | finished (exec ?h ?n (ITree.bind (Ret _) _) ?w) =>
      rewrite exec_bind_Ret in F |- *
  | finished (exec ?h ?n (Ret _) ?w) =>
      destruct n as [|n]; [contradiction F|];
      rewrite exec_Ret in F |- *
  end.

Lemma untouched_no_exchange (l : list (event kernE)) :
  (forall lk, Forall (fun ev => touches lk ev = false) l) ->
  Forall (fun ev => is_exchange ev = false) l.
Proof.
  intros H. apply Forall_forall. intros [T e x] Hin.
  destruct e; try reflexivity.
  specialize (H lk). rewrite Forall_forall in H. specialize (H _ Hin).
  cbn in H. rewrite Z.eqb_refl in H. discriminate.
Qed.

Section AnyEnvironment.
Context {W : Type}.
Variable h : handler kernE W.

Lemma push_off_log n w :
  finished (exec h n push_off w) ->
  exists w' l, exec h n push_off w = Done tt w' l /\
    raises_nesting l /\ (forall lk, Forall (fun ev => touches lk ev = false) l).
Proof.
  unfold push_off. intros F.
  do 4 run_call F.
  destruct (z =? 0); repeat run_call F; repeat match goal with u : unit |- _ => destruct u end;
    cbn [emit app]; do 2 eexists; (split; [reflexivity|]); split.
  - exists [Event IntrGet b; Event IntrOff tt; Event MyCpu h0; Event (LoadNoff h0) z;
            Event MyCpu h1; Event (StoreIntena h1 b) tt; Event MyCpu h2].
    do 2 eexists; reflexivity.
  - intros lk; repeat constructor.
  - exists [Event IntrGet b; Event IntrOff tt; Event MyCpu h0; Event (LoadNoff h0) z;
            Event MyCpu h1].
    do 2 eexists; reflexivity.
  - intros lk; repeat constructor.
Qed.



Lemma holding_runs lk n w :
  finished (exec h n (holding lk) w) ->
  exists b w' l, exec h n (holding lk) w = Done b w' l /\ holding_log lk b l.
Proof.
  unfold holding. intros F.
  run_call F. destruct (z =? 0) eqn:Ez; repeat run_call F; cbn [emit app].
  - apply Z.eqb_eq in Ez; subst z.
    do 3 eexists; split; [reflexivity|]. left; auto.
  - apply Z.eqb_neq in Ez.
    do 3 eexists; split; [reflexivity|]. right.
    do 3 eexists; split; [eassumption|]; split; reflexivity.
Qed.

Lemma exec_Tau R (t : prog kernE R) n w : exec h (S n) (Tau t) w = exec h n t w.
Proof. reflexivity. Qed.

Lemma exec_iter R I (body : I -> prog kernE (I + R)) (i : I) n w :
  exec h n (ITree.iter body i) w =
  exec h n (lr <- body i ;;
            match lr with inl l => Tau (ITree.iter body l) | inr r => Ret r end) w.
Proof. destruct n; reflexivity. Qed.

(** One turn of the loop: exchange, and go round again unless the lock
    word was clear. *)
Lemma exec_spin lk n w :
  exec h n (spin lk) w =
  exec h n (old <- call (TestAndSet lk 1) ;;
            if old =? 0 then Ret tt else Tau (spin lk)) w.
Proof.
  unfold spin at 1. rewrite exec_iter, exec_bind_bind.
  destruct n as [|n]; [reflexivity|].
  rewrite !exec_bind_call. f_equal.
  destruct (fst (h Z (TestAndSet lk 1) w) =? 0); rewrite exec_bind_Ret; reflexivity.
Qed.

Lemma exec_bind_iter R R' I (body : I -> prog kernE (I + R)) (i : I)
    (k : R -> prog kernE R') n w :
  exec h n (ITree.bind (ITree.iter body i) k) w =
  exec h n (ITree.bind
              (lr <- body i ;;
               match lr with inl l => Tau (ITree.iter body l) | inr r => Ret r end) k) w.
Proof. destruct n; reflexivity. Qed.

Lemma exec_bind_Tau R R' (t : prog kernE R) (k : R -> prog kernE R') n w :
  exec h n (ITree.bind (Tau t) k) w = exec h n (Tau (ITree.bind t k)) w.
Proof. destruct n; reflexivity. Qed.

Lemma exec_bind_spin R lk (k : unit -> prog kernE R) n w :
  exec h n (ITree.bind (spin lk) k) w =
  exec h n (old <- call (TestAndSet lk 1) ;;
            if old =? 0 then k tt else Tau (ITree.bind (spin lk) k)) w.
Proof.
  unfold spin at 1. rewrite exec_bind_iter, !exec_bind_bind.
  destruct n as [|n]; [reflexivity|].
  rewrite !exec_bind_call. f_equal.
  destruct (fst (h Z (TestAndSet lk 1) w) =? 0);
    cbv beta iota; rewrite exec_bind_Ret; cbv beta iota.
  - apply exec_bind_Ret.
  - apply exec_bind_Tau.
Qed.

Lemma spin_runs lk n : forall w,
  finished (exec h n (spin lk) w) ->
  exists w' l, exec h n (spin lk) w = Done tt w' (l ++ [Event (TestAndSet lk 1) 0]) /\
               Forall (lost_exchange lk) l.
Proof.
  induction n as [n IH] using lt_wf_ind. intros w F.
  rewrite exec_spin in F |- *.
  run_call F. destruct (z =? 0) eqn:Ez.
  - apply Z.eqb_eq in Ez; subst z. run_call F. cbn [emit app].
    exists w0, []. split; [reflexivity | constructor].
  - apply Z.eqb_neq in Ez.
    destruct n as [|n]; [contradiction F|]. rewrite exec_Tau in F |- *.
    destruct (IH n ltac:(lia) w0 F) as (w' & l & E & Hl).
    rewrite E. cbn [emit app].
    exists w', (Event (TestAndSet lk 1) z :: l). split; [reflexivity|].
    constructor; [exists z; auto | assumption].
Qed.

Lemma pop_off_runs n w :
  finished (exec h n pop_off w) ->
  (exists w' c, exec h n pop_off w =
     Panicked "pop_off - interruptible" w' [Event MyCpu c; Event IntrGet true]) \/
  (exists w' c d, d < 1 /\ exec h n pop_off w =
     Panicked "pop_off" w' [Event MyCpu c; Event IntrGet false; Event (LoadNoff c) d]) \/
  (exists w' l, exec h n pop_off w = Done tt w' l /\
     lowers_nesting l /\ (forall lk, Forall (fun ev => touches lk ev = false) l)).
Proof.
  unfold pop_off. intros F.
  do 2 run_call F. destruct b.
  { left. destruct n as [|n]; [contradiction F|]. rewrite exec_bind_panic.
    do 2 eexists; reflexivity. }
  do 2 run_call F. destruct (z <? 1) eqn:Ez.
  { right; left. apply Z.ltb_lt in Ez.
    destruct n as [|n]; [contradiction F|]. rewrite exec_bind_panic.
    do 3 eexists; split; [eassumption | reflexivity]. }
  right; right.
  do 4 run_call F.
  destruct (z1 =? 0) eqn:Ez1; [apply Z.eqb_eq in Ez1; subst z1 | apply Z.eqb_neq in Ez1].
  - run_call F. destruct b; run_call F;
      repeat match goal with u : unit |- _ => destruct u end;
      cbn [emit app]; do 2 eexists; (split; [reflexivity|]); split.
    + exists [Event MyCpu h0; Event IntrGet false; Event (LoadNoff h0) z]. do 3 eexists.
      split; [reflexivity | auto].
    + intros lk; repeat constructor.
    + exists [Event MyCpu h0; Event IntrGet false; Event (LoadNoff h0) z]. do 3 eexists.
      split; [reflexivity | auto].
    + intros lk; repeat constructor.
  - run_call F. repeat match goal with u : unit |- _ => destruct u end.
    cbn [emit app]; do 2 eexists; (split; [reflexivity|]); split.
    + exists [Event MyCpu h0; Event IntrGet false; Event (LoadNoff h0) z]. do 3 eexists.
      split; [reflexivity | right; right; eauto].
    + intros lk; repeat constructor.
Qed.

(** [acquire] against any environment: [push_off] runs to its end, then
    [holding]; on [true] the kernel panics, on [false] the exchange is
    repeated while it loses, and the fence and the owner follow. *)
Lemma acquire_runs lk n w :
  finished (exec h n (acquire lk) w) ->
  exists n1 w1 l1 n2 b w2 l2,
    exec h n1 push_off w = Done tt w1 l1 /\
    exec h n2 (holding lk) w1 = Done b w2 l2 /\
    ((b = true /\ exec h n (acquire lk) w = Panicked "acquire" w2 (l1 ++ l2)) \/
     (b = false /\ exists w' l3 c,
        exec h n (acquire lk) w =
          Done tt w' (l1 ++ l2 ++ l3 ++
                      [Event (TestAndSet lk 1) 0; Event Synchronize tt;
                       Event MyCpu c; Event (StoreCpu lk (Some c)) tt]) /\
        Forall (lost_exchange lk) l3)).
Proof.
  unfold acquire. intros F.
  destruct (exec_bind_inv h _ _ _ _ _ _ F)
    as [(msg & w1 & l1 & H1 & _)|(r & w1 & l1 & m & H1 & _ & F1 & H2)].
  { destruct (push_off_log n w) as (w' & l & E & _); [rewrite H1; exact I|].
    rewrite E in H1; discriminate. }
  rewrite H2. destruct r. cbv beta in F1 |- *.
  destruct (exec_bind_inv h _ _ _ _ _ _ F1)
    as [(msg & w2 & l2 & H3 & _)|(b & w2 & l2 & m2 & H3 & _ & F2 & H4)].
  { destruct (holding_runs lk m w1) as (b & w' & l & E & _); [rewrite H3; exact I|].
    rewrite E in H3; discriminate. }
  rewrite H4. exists n, w1, l1, m, b, w2, l2. repeat split; try assumption.
  destruct b; cbv beta iota in F2 |- *.
  - left. split; [reflexivity|].
    destruct m2 as [|m2]; [contradiction F2|]. rewrite exec_bind_panic.
    cbn [emit]. rewrite app_nil_r. reflexivity.
  - right. split; [reflexivity|].
    rewrite exec_bind_Ret in F2 |- *.
    destruct (exec_bind_inv h _ _ _ _ _ _ F2)
      as [(msg & w3 & l3 & H5 & _)|(r & w3 & l3 & m3 & H5 & _ & F3 & H6)].
    { destruct (spin_runs lk m2 w2) as (w' & l & E & _); [rewrite H5; exact I|].
      rewrite E in H5; discriminate. }
    rewrite H6. destruct r. cbv beta in F3 |- *.
    destruct (spin_runs lk m2 w2) as (w' & l & E & Hl); [rewrite H5; exact I|].
    rewrite E in H5. inversion H5; subst w3 l3.
    do 3 run_call F3. repeat match goal with u : unit |- _ => destruct u end.
    cbn [emit]. exists w4, l, h0. split; [|assumption].
    rewrite <- !app_assoc. reflexivity.
Qed.


(** [release] against any environment: on [false] from [holding] the
    kernel panics having written nothing; on [true] the owner is cleared,
    then the fence, then the atomic clear, and [pop_off] runs last. *)
Lemma release_runs lk n w :
  finished (exec h n (release lk) w) ->
  exists n1 b w1 l1,
    exec h n1 (holding lk) w = Done b w1 l1 /\
    ((b = false /\ exec h n (release lk) w = Panicked "release" w1 l1) \/
     (b = true /\ exists w2 w3 w4 n2 o,
        h _ (StoreCpu lk None) w1 = (tt, w2) /\
        h _ Synchronize w2 = (tt, w3) /\
        h _ (LockRelease lk) w3 = (tt, w4) /\
        finished o /\ exec h n2 pop_off w4 = o /\
        exec h n (release lk) w =
          emit (l1 ++ [Event (StoreCpu lk None) tt; Event Synchronize tt;
                       Event (LockRelease lk) tt]) o)).
Proof.
  unfold release. intros F.
  destruct (exec_bind_inv h _ _ _ _ _ _ F)
    as [(msg & w1 & l1 & H1 & _)|(b & w1 & l1 & m & H1 & _ & F1 & H2)].
  { destruct (holding_runs lk n w) as (b & w' & l & E & _); [rewrite H1; exact I|].
    rewrite E in H1; discriminate. }
  rewrite H2. exists n, b, w1, l1. split; [assumption|].
  destruct b; cbv beta iota in F1 |- *; cbn [negb] in F1 |- *.
  - right. split; [reflexivity|].
    rewrite exec_bind_Ret in F1 |- *.
    destruct m as [|m]; [contradiction F1|]. rewrite exec_bind_call in F1 |- *.
    destruct (h _ (StoreCpu lk None) w1) as [[] w2] eqn:E1. cbn [fst snd] in F1 |- *.
    apply finished_emit in F1.
    destruct m as [|m]; [contradiction F1|]. rewrite exec_bind_call in F1 |- *.
    destruct (h _ Synchronize w2) as [[] w3] eqn:E2. cbn [fst snd] in F1 |- *.
    apply finished_emit in F1.
    destruct m as [|m]; [contradiction F1|]. rewrite exec_bind_call in F1 |- *.
    destruct (h _ (LockRelease lk) w3) as [[] w4] eqn:E3. cbn [fst snd] in F1 |- *.
    apply finished_emit in F1.
    exists w2, w3, w4, m, (exec h m pop_off w4).
    repeat (split; [assumption || reflexivity|]).
    rewrite !emit_emit, <- !app_assoc. reflexivity.
  - left. split; [reflexivity|].
    destruct m as [|m]; [contradiction F1|]. rewrite exec_bind_panic.
    cbn [emit]. rewrite app_nil_r. reflexivity.
Qed.

End AnyEnvironment.

(* ===================================================================== *)
(** * Runs on the machine of one hart *)
(* ===================================================================== *)

Lemma upd_same A (f : Z -> A) k v : upd f k v k = v.
Proof. unfold upd. rewrite Z.eqb_refl. reflexivity. Qed.

Lemma upd_other A (f : Z -> A) k v x : x <> k -> upd f k v x = f x.
Proof. unfold upd. intros H. apply Z.eqb_neq in H. rewrite H. reflexivity. Qed.

(* Read a field back after the stores made so far. *)
Ltac msimpl :=
  cbn [machine fst snd set_sie set_noff set_intena set_locked set_cpu set_name
       locks cpus sie noff intena name locked cpu];
  rewrite ?upd_same;
  cbn [noff intena name locked cpu].

(* One node of a run on the machine, by rewriting. *)
Ltac mstep :=
  first
    [ rewrite exec_bind_bind
    | rewrite exec_bind_Ret
    | rewrite exec_bind_call; msimpl
    | rewrite exec_call; msimpl
    | rewrite exec_Ret
    | rewrite exec_bind_panic
    | rewrite exec_panic ].

(* Run on the machine with fuel [k], up to the next undecided test. *)
Ltac mrun k :=
  eexists; apply yields_intro with (n := k); [|exact I]; repeat mstep.

(* The fields of the state a run has reached. *)
Ltac mfacts :=
  repeat split; intros; msimpl; rewrite ?upd_other by assumption; auto.

Lemma push_off_machine c s :
  exists s', returns (machine c) push_off s tt s' /\
    locks s' = locks s /\
    sie s' c = false /\
    noff (cpus s' c) = noff (cpus s c) + 1 /\
    intena (cpus s' c) = (if noff (cpus s c) =? 0 then sie s c else intena (cpus s c)) /\
    (forall c', c' <> c -> cpus s' c' = cpus s c' /\ sie s' c' = sie s c').
Proof.
  destruct (noff (cpus s c) =? 0) eqn:E; eexists; split.
  - unfold push_off. mrun 12%nat. rewrite E. repeat mstep. reflexivity.
  - mfacts.
  - unfold push_off. mrun 12%nat. rewrite E. repeat mstep. reflexivity.
  - mfacts.
Qed.

Lemma pop_off_machine_enabled c s :
  sie s c = true -> panics (machine c) pop_off s "pop_off - interruptible" s.
Proof.
  intros E. unfold pop_off. mrun 12%nat. rewrite E. repeat mstep. reflexivity.
Qed.

Lemma pop_off_machine_zero c s :
  sie s c = false -> noff (cpus s c) < 1 -> panics (machine c) pop_off s "pop_off" s.
Proof.
  intros E L. apply Z.ltb_lt in L. unfold pop_off. mrun 12%nat.
  rewrite E. repeat mstep. rewrite L. repeat mstep. reflexivity.
Qed.

Lemma pop_off_machine c s :
  sie s c = false -> 1 <= noff (cpus s c) ->
  exists s', returns (machine c) pop_off s tt s' /\
    locks s' = locks s /\
    noff (cpus s' c) = noff (cpus s c) - 1 /\
    intena (cpus s' c) = intena (cpus s c) /\
    sie s' c = (if noff (cpus s c) - 1 =? 0 then intena (cpus s c) else false) /\
    (forall c', c' <> c -> cpus s' c' = cpus s c' /\ sie s' c' = sie s c').
Proof.
  intros E L. apply Z.ltb_ge in L.
  destruct (noff (cpus s c) - 1 =? 0) eqn:E0; [destruct (intena (cpus s c)) eqn:E1|];
    eexists; split.
  1,3,5: unfold pop_off; mrun 14%nat; rewrite E; repeat mstep; rewrite L; repeat mstep;
    rewrite E0; repeat mstep; rewrite ?E1; repeat mstep; reflexivity.
  all: mfacts.
Qed.

Lemma holding_machine c lk s :
  returns (machine c) (holding lk) s (holds lk c s) s.
Proof.
  unfold holds. destruct (locked (locks s lk) =? 0) eqn:E;
    unfold holding; mrun 6%nat; rewrite E; repeat mstep; reflexivity.
Qed.

Lemma initlock_machine c lk nm s :
  exists s', returns (machine c) (initlock lk nm) s tt s' /\
    locks s' lk = mkSpinlock nm 0 None /\
    (forall lk', lk' <> lk -> locks s' lk' = locks s lk') /\
    cpus s' = cpus s /\ sie s' = sie s.
Proof.
  eexists; split.
  - unfold initlock. mrun 6%nat. reflexivity.
  - mfacts.
Qed.

Lemma acquire_machine_held c lk s :
  holds lk c s = true ->
  exists s', panics (machine c) (acquire lk) s "acquire" s' /\
    locks s' = locks s /\ noff (cpus s' c) = noff (cpus s c) + 1 /\ sie s' c = false.
Proof.
  intros H. unfold holds in H. apply andb_true_iff in H. destruct H as [H1 H2].
  apply negb_true_iff in H1.
  destruct (noff (cpus s c) =? 0) eqn:E; eexists; split.
  1,3: unfold acquire, push_off, holding; mrun 20%nat; rewrite E; repeat mstep;
    rewrite H1; repeat mstep; rewrite H2; repeat mstep; reflexivity.
  all: mfacts.
Qed.

Lemma acquire_machine_free c lk s :
  locked (locks s lk) = 0 ->
  exists s', returns (machine c) (acquire lk) s tt s' /\
    locks s' lk = mkSpinlock (name (locks s lk)) 1 (Some c) /\
    (forall lk', lk' <> lk -> locks s' lk' = locks s lk') /\
    sie s' c = false /\
    noff (cpus s' c) = noff (cpus s c) + 1 /\
    intena (cpus s' c) = (if noff (cpus s c) =? 0 then sie s c else intena (cpus s c)) /\
    (forall c', c' <> c -> cpus s' c' = cpus s c' /\ sie s' c' = sie s c').
Proof.
  intros H.
  destruct (noff (cpus s c) =? 0) eqn:E; eexists; split.
  1,3: unfold acquire, push_off, holding; mrun 30%nat; rewrite E; repeat mstep;
    rewrite H; cbn [Z.eqb]; repeat mstep;
    rewrite exec_bind_spin; repeat mstep; rewrite H; cbn [Z.eqb]; repeat mstep;
    reflexivity.
  all: mfacts.
Qed.

Lemma release_machine_not_held c lk s :
  holds lk c s = false -> panics (machine c) (release lk) s "release" s.
Proof.
  intros H. unfold release. apply panics_bind with (r := false) (w1 := s).
  - rewrite <- H. apply holding_machine.
  - cbn [negb]. apply panics_bind_l. apply panics_panic.
Qed.

Lemma release_machine_held c lk s :
  holds lk c s = true -> sie s c = false -> 1 <= noff (cpus s c) ->
  exists s', returns (machine c) (release lk) s tt s' /\
    locks s' lk = mkSpinlock (name (locks s lk)) 0 None /\
    (forall lk', lk' <> lk -> locks s' lk' = locks s lk') /\
    noff (cpus s' c) = noff (cpus s c) - 1 /\
    intena (cpus s' c) = intena (cpus s c) /\
    sie s' c = (if noff (cpus s c) - 1 =? 0 then intena (cpus s c) else false) /\
    (forall c', c' <> c -> cpus s' c' = cpus s c' /\ sie s' c' = sie s c').
Proof.
  intros H E L. apply Z.ltb_ge in L.
  unfold holds in H. apply andb_true_iff in H. destruct H as [H1 H2].
  apply negb_true_iff in H1.
  destruct (noff (cpus s c) - 1 =? 0) eqn:E0; [destruct (intena (cpus s c)) eqn:E1|];
    eexists; split.
  1,3,5: unfold release, holding, pop_off; mrun 30%nat; rewrite H1; repeat mstep;
    rewrite H2; cbn [negb]; repeat mstep; rewrite E; repeat mstep; rewrite L; repeat mstep;
    rewrite E0; repeat mstep; rewrite ?E1; repeat mstep; reflexivity.
  all: mfacts.
Qed.

(* ===================================================================== *)
(** * What a held lock withstands *)
(* ===================================================================== *)

(* One rule of [always], chosen by the shape of the program. *)
Ltac astep :=
  first
    [ apply always_bind_panic; try reflexivity
    | apply always_panic; try reflexivity
    | apply always_bind_call; [try reflexivity | cbn [machine fst snd]]
    | apply always_call; [try reflexivity | cbn [machine fst snd]; try reflexivity]
    | apply always_bind_Ret
    | apply always_Ret; try reflexivity
    | apply always_bind_bind
    | match goal with
      | |- always _ (ITree.bind (if ?b then _ else _) _) _ _ => destruct b
      | |- always _ (if ?b then _ else _) _ _ => destruct b
      end ].

Lemma push_off_always h s :
  always (machine h) push_off s (fun s' => locks s' = locks s).
Proof. unfold push_off. repeat astep. Qed.


Lemma holding_always h lk s :
  always (machine h) (holding lk) s (fun s' => s' = s).
Proof. unfold holding. repeat astep. Qed.

Lemma holds_iff lk c s : holds lk c s = true <-> held lk c s.
Proof.
  unfold holds, held, is_cpu. rewrite andb_true_iff, negb_true_iff, Z.eqb_neq.
  destruct (cpu (locks s lk)) as [c'|].
  - rewrite Z.eqb_eq. split; intros [H1 H2]; split; congruence.
  - split; intros [H1 H2]; discriminate.
Qed.

Lemma held_frame lk c s s' :
  locks s' lk = locks s lk -> held lk c s -> held lk c s'.
Proof. unfold held. intros ->. auto. Qed.

Lemma held_set_locked lk c lk' v s :
  v <> 0 \/ lk' <> lk -> held lk c s -> held lk c (set_locked lk' v s).
Proof.
  unfold held, set_locked. cbn [locks]. intros Hv [H1 H2].
  destruct (Z.eq_dec lk lk') as [->|Hne].
  - rewrite upd_same. cbn. split; [|assumption]. destruct Hv; congruence.
  - rewrite upd_other by assumption. auto.
Qed.

(** While the lock word of [lk] is set and owned by [c], the loop of
    [acquire(lk')] on any hart keeps it so: on [lk] itself every exchange
    loses and the loop never ends; on another lock nothing of [lk] is
    written. *)
Lemma spin_always h c lk lk' R (k : unit -> prog kernE R) :
  (lk' <> lk -> forall s', held lk c s' -> always (machine h) (k tt) s' (held lk c)) ->
  forall s, held lk c s -> always (machine h) (ITree.bind (spin lk') k) s (held lk c).
Proof.
  intros Hk s Hs n. revert s Hs.
  induction n as [n IH] using lt_wf_ind. intros s Hs.
  rewrite exec_bind_spin. destruct n as [|n]; [exact Hs|].
  rewrite exec_bind_call, world_of_emit. msimpl.
  assert (Hs' : held lk c (set_locked lk' 1 s)) by (apply held_set_locked; [left; lia | assumption]).
  destruct (locked (locks s lk') =? 0) eqn:E.
  - apply Hk; [|assumption]. intros ->. apply Z.eqb_eq in E. destruct Hs as [Hs _]. contradiction.
  - destruct n as [|n]; [exact Hs'|]. rewrite exec_Tau. apply IH; [lia | assumption].
Qed.

(* The lock [lk] has the record it had: only other locks and the per-hart
   fields were written. *)
Ltac framed :=
  try assumption;
  (eapply held_frame; [|eassumption]);
  cbn [locks set_sie set_noff set_intena set_locked set_cpu set_name];
  rewrite ?upd_other by auto; reflexivity.

Lemma holding_result h lk s n b s' l :
  exec (machine h) n (holding lk) s = Done b s' l -> b = holds lk h s /\ s' = s.
Proof.
  intros E. destruct (holding_machine h lk s) as [log Hy].
  assert (F : finished (exec (machine h) n (holding lk) s)) by (rewrite E; exact I).
  rewrite (yields_exec _ _ _ _ _ _ Hy F) in E. inversion E; auto.
Qed.

Lemma acquire_always h c lk lk' s :
  held lk c s -> always (machine h) (acquire lk') s (held lk c).
Proof.
  intros Hs. unfold acquire. apply always_bind.
  { eapply always_impl; [|apply push_off_always].
    intros s' E. eapply held_frame; [rewrite E; reflexivity | assumption]. }
  intros n [] s1 l1 E1.
  assert (H1 : held lk c s1).
  { pose proof (push_off_always h s n) as A. rewrite E1 in A. cbn in A.
    eapply held_frame; [rewrite A; reflexivity | assumption]. }
  apply always_bind.
  { eapply always_impl; [|apply holding_always]. intros s' ->. assumption. }
  intros n2 b s2 l2 E2. apply holding_result in E2. destruct E2 as [_ ->].
  destruct b.
  - apply always_bind_panic. assumption.
  - apply always_bind_Ret. apply spin_always; [|assumption].
    intros Hne s' Hs'. repeat astep; framed.
Qed.









(** There is no bounded wait: on the machine of one hart, where nobody
    else runs to free the lock, the loop of [acquire(lk)] on a lock whose
    word is set never ends. *)
Lemma spin_never_ends c lk R (k : unit -> prog kernE R) : forall n s,
  locked (locks s lk) <> 0 ->
  ~ finished (exec (machine c) n (ITree.bind (spin lk) k) s).
Proof.
  induction n as [n IH] using lt_wf_ind. intros s Hs F.
  rewrite exec_bind_spin in F. destruct n as [|n]; [exact F|].
  rewrite exec_bind_call in F. apply finished_emit in F. revert F. msimpl.
  apply Z.eqb_neq in Hs. rewrite Hs.
  destruct n as [|n]; [auto|]. rewrite exec_Tau.
  apply IH; [lia|]. msimpl. discriminate.
Qed.

Lemma acquire_machine_spins c lk s :
  holds lk c s = false -> locked (locks s lk) <> 0 ->
  spins (machine c) (acquire lk) s.
Proof.
  intros Hh Hl n F. unfold acquire in F.
  destruct (exec_bind_inv _ _ _ _ _ _ _ F)
    as [(msg & s1 & l1 & H1 & _)|([] & s1 & l1 & m & H1 & _ & F1 & _)].
  { destruct (push_off_log (machine c) n s) as (w' & l & E & _); [rewrite H1; exact I|].
    rewrite E in H1; discriminate. }
  assert (E1 : locks s1 = locks s).
  { pose proof (push_off_always c s n) as A. rewrite H1 in A. exact A. }
  cbv beta in F1.
  destruct (exec_bind_inv _ _ _ _ _ _ _ F1)
    as [(msg & s2 & l2 & H2 & _)|(b & s2 & l2 & m2 & H2 & _ & F2 & _)].
  { destruct (holding_runs (machine c) lk m s1) as (b & w' & l & E & _); [rewrite H2; exact I|].
    rewrite E in H2; discriminate. }
  apply holding_result in H2. destruct H2 as [-> ->].
  assert (E2 : holds lk c s1 = false) by (unfold holds in *; rewrite E1; assumption).
  rewrite E2 in F2. cbv beta iota in F2. rewrite exec_bind_Ret in F2.
  revert F2. apply spin_never_ends. rewrite E1. assumption.
Qed.

(* ===================================================================== *)
(** * Nested calls and timer setup *)
(* ===================================================================== *)

Lemma nest_calls_run (c : hartid) (ops : list nest_op) : forall (d : nat) (s : state),
  noff (cpus s c) = Z.of_nat d ->
  (d <> O -> sie s c = false) ->
  balanced_from d ops = true ->
  exists s', returns (machine c) (nest_calls ops) s tt s' /\
    noff (cpus s' c) = 0 /\ sie s' c = ambient c s.
Proof.
  induction ops as [|o ops IH]; intros d s Hd Hoff Hb; cbn [balanced_from nest_calls] in *.
  - apply Nat.eqb_eq in Hb. subst d. exists s. split; [apply returns_Ret|].
    split; [assumption|]. unfold ambient. rewrite Hd. reflexivity.
  - destruct o; cbn [nest_call].
    + destruct (push_off_machine c s) as (s1 & R1 & _ & Hs & Hn & Hi & _).
      destruct (IH (S d) s1) as (s' & R & Hn' & Hs'); try assumption.
      { rewrite Hn, Hd. lia. }
      { intros _. assumption. }
      exists s'. split; [eapply returns_bind; eassumption|]. split; [assumption|].
      rewrite Hs'. unfold ambient. rewrite Hn, Hi.
      replace (noff (cpus s c) + 1 =? 0) with false
        by (symmetry; apply Z.eqb_neq; lia).
      reflexivity.
    + destruct d as [|d]; [discriminate|].
      destruct (pop_off_machine c s) as (s1 & R1 & _ & Hn & Hi & Hs & _).
      { apply Hoff. discriminate. }
      { lia. }
      destruct (IH d s1) as (s' & R & Hn' & Hs'); try assumption.
      { rewrite Hn, Hd. lia. }
      { intros Hne. rewrite Hs. replace (noff (cpus s c) - 1 =? 0) with false; [reflexivity|].
        symmetry; apply Z.eqb_neq; lia. }
      exists s'. split; [eapply returns_bind; eassumption|]. split; [assumption|].
      rewrite Hs'. unfold ambient. rewrite Hn, Hi, Hs.
      replace (noff (cpus s c) =? 0) with false by (symmetry; apply Z.eqb_neq; lia).
      destruct (noff (cpus s c) - 1 =? 0); reflexivity.
Qed.

Lemma holds_of_record (lk : lockptr) (c : hartid) (s : state) (nm : string) :
  locks s lk = mkSpinlock nm 1 (Some c) -> holds lk c s = true.
Proof.
  intros H. unfold holds. rewrite H. cbn. apply Z.eqb_refl.
Qed.

Lemma nested_locks_run (c : hartid) (L1 L2 : lockptr) (s : state) :
  L1 <> L2 ->
  locked (locks s L1) = 0 ->
  locked (locks s L2) = 0 ->
  noff (cpus s c) = 0 ->
  exists s1 s2 s3 s4,
    returns (machine c) (acquire L1) s tt s1 /\ noff (cpus s1 c) = 1 /\
    returns (machine c) (acquire L2) s1 tt s2 /\ noff (cpus s2 c) = 2 /\
    returns (machine c) (release L2) s2 tt s3 /\
    returns (machine c) (release L1) s3 tt s4 /\ noff (cpus s4 c) = 0.
Proof.
  intros Hne F1 F2 H0.
  destruct (acquire_machine_free c L1 s F1) as (s1 & R1 & K1 & Fr1 & _ & N1 & _).
  assert (F2' : locked (locks s1 L2) = 0) by (rewrite Fr1 by auto; assumption).
  destruct (acquire_machine_free c L2 s1 F2') as (s2 & R2 & K2 & Fr2 & E2 & N2 & _).
  assert (H2 : holds L2 c s2 = true) by (eapply holds_of_record; eassumption).
  destruct (release_machine_held c L2 s2 H2 E2) as (s3 & R3 & _ & Fr3 & N3 & _ & E3 & _);
    [lia|].
  assert (H1 : holds L1 c s3 = true).
  { eapply holds_of_record. rewrite Fr3, Fr2 by auto. eassumption. }
  assert (E3' : sie s3 c = false).
  { rewrite E3. replace (noff (cpus s2 c) - 1 =? 0) with false; [reflexivity|].
    symmetry; apply Z.eqb_neq; lia. }
  destruct (release_machine_held c L1 s3 H1 E3') as (s4 & R4 & _ & _ & N4 & _); [lia|].
  exists s1, s2, s3, s4. repeat split; try assumption; lia.
Qed.

Lemma to_int_small (x : Z) : 0 <= x < 2 ^ 31 -> to_int x = x.
Proof.
  intros H. unfold to_int. rewrite Z.mod_small; lia.
Qed.

(* One node of a run of [timerinit], by rewriting. *)
Ltac bstep :=
  first
    [ rewrite exec_bind_bind
    | rewrite exec_bind_Ret
    | rewrite exec_bind_call; cbn [boot_machine fst snd mem timer_scratch csrs]
    | rewrite exec_call; cbn [boot_machine fst snd mem timer_scratch csrs]
    | rewrite exec_Ret ].

(* ===================================================================== *)
(** * Winning the lock, and releasing it outside the discipline *)
(* ===================================================================== *)

Section Winning.
Context {W : Type}.
Variable h : handler kernE W.



End Winning.

(** The holder's [release] outside the discipline: the lock is freed, and
    then [pop_off] panics before it has written anything. *)
Lemma release_machine_panics c lk s :
  holds lk c s = true ->
  (sie s c = true \/ noff (cpus s c) < 1) ->
  exists s', panics (machine c) (release lk) s
                    (if sie s c then "pop_off - interruptible" else "pop_off") s' /\
    locks s' lk = mkSpinlock (name (locks s lk)) 0 None /\
    (forall lk', lk' <> lk -> locks s' lk' = locks s lk') /\
    cpus s' = cpus s /\ sie s' = sie s.
Proof.
  intros H D. unfold holds in H. apply andb_true_iff in H. destruct H as [H1 H2].
  apply negb_true_iff in H1.
  destruct (sie s c) eqn:E.
  - eexists. split.
    + unfold release, holding, pop_off. mrun 30%nat. rewrite H1. repeat mstep.
      rewrite H2. cbn [negb]. repeat mstep. rewrite E. repeat mstep. reflexivity.
    + mfacts.
  - destruct D as [D|L]; [discriminate|]. apply Z.ltb_lt in L. eexists. split.
    + unfold release, holding, pop_off. mrun 30%nat. rewrite H1. repeat mstep.
      rewrite H2. cbn [negb]. repeat mstep. rewrite E. repeat mstep.
      rewrite L. repeat mstep. reflexivity.
    + mfacts.
Qed.

(* ===================================================================== *)
(** * The claims *)
(* ===================================================================== *)



(** C2. Every call of [release(lk)] that ends, whatever the other harts
    do meanwhile, has read the lock in [holding] and then: when the caller
    does not hold the lock, panicked; when it does, stored the null owner,
    then issued the fence, then cleared the lock word atomically, and last
    run [pop_off] to its end, which on returning has lowered the nesting
    depth.  On the machine, a call by the holder made with interrupts off
    at depth at least one returns with the depth one lower; a call by the
    holder made with interrupts on, or at depth below one, has freed the
    lock when it ends in the panic of [pop_off], the depth left as it
    was. *)
Theorem release_order (lk : lockptr) :
  (forall (W : Type) (h : handler kernE W) (n : nat) (w : W),
     finished (exec h n (release lk) w) ->
     release_ordered h lk (exec h n (release lk) w)) /\
  (forall (c : hartid) (s : state),
     holds lk c s = true -> sie s c = false -> 1 <= noff (cpus s c) ->
     exists s', returns (machine c) (release lk) s tt s' /\
       noff (cpus s' c) = noff (cpus s c) - 1) /\
  (forall (c : hartid) (s : state),
     holds lk c s = true -> sie s c = true \/ noff (cpus s c) < 1 ->
     exists s',
       panics (machine c) (release lk) s
              (if sie s c then "pop_off - interruptible" else "pop_off") s' /\
       locked (locks s' lk) = 0 /\ cpu (locks s' lk) = None /\
       noff (cpus s' c) = noff (cpus s c)).
Proof.
  split; [|split].
  - intros W h n w F.
    destruct (release_runs h lk n w F) as (n1 & b & w1 & l1 & H1 & H2).
    destruct (holding_runs h lk n1 w) as (b' & w1' & l1' & E1 & Hh); [rewrite H1; exact I|].
    rewrite H1 in E1; inversion E1; subst.
    exists b', l1'. split; [assumption|].
    destruct H2 as [[-> H2]|[-> (w2 & w3 & w4 & n2 & o & _ & _ & _ & Fo & Eo & H2)]].
    + left. split; [reflexivity|]. rewrite H2. eexists; reflexivity.
    + right. split; [reflexivity|]. exists o. split; [eauto|]. split; [assumption|].
      split; [assumption|]. intros w' l_pop Ho.
      assert (Fp : finished (exec h n2 pop_off w4)) by (rewrite Eo; assumption).
      destruct (pop_off_runs h n2 w4 Fp)
        as [(w5 & c & E5)|[(w5 & c & d & _ & E5)|(w5 & l5 & E5 & L5 & T5)]];
        rewrite Eo, Ho in E5; try discriminate.
      inversion E5; subst. split; [assumption | apply T5].
  - intros c s H E L.
    destruct (release_machine_held c lk s H E L) as (s' & R & _ & _ & N & _).
    exists s'. split; assumption.
  - intros c s H D.
    destruct (release_machine_panics c lk s H D) as (s' & P & K & _ & C & _).
    exists s'. split; [assumption|]. rewrite K, C. repeat split.
Qed.

(** Hart 2 releases the lock it took on the zeroed machine; and releases
    it at depth zero. *)
Lemma release_order_witness :
  release_ordered (machine 2) 7 (exec (machine 2) 30 (release 7) held_by_2) /\
  (exists s', returns (machine 2) (release 7) held_by_2 tt s' /\
     noff (cpus s' 2) = noff (cpus held_by_2 2) - 1) /\
  (exists s',
     panics (machine 2) (release 7) (set_noff 2 0 held_by_2)
            (if sie (set_noff 2 0 held_by_2) 2 then "pop_off - interruptible" else "pop_off")
            s' /\
     locked (locks s' 7) = 0 /\ cpu (locks s' 7) = None /\
     noff (cpus s' 2) = noff (cpus (set_noff 2 0 held_by_2) 2)).
Proof.
  split; [|split].
  - apply (proj1 (release_order 7) state (machine 2) 30%nat held_by_2).
    vm_compute. exact I.
  - apply (proj1 (proj2 (release_order 7)) 2 held_by_2);
      vm_compute; (reflexivity || discriminate).
  - apply (proj2 (proj2 (release_order 7)) 2 (set_noff 2 0 held_by_2)).
    + vm_compute. reflexivity.
    + right. vm_compute. reflexivity.
Defined.

(** The holder's call that never lowers the depth: on the zeroed machine
    hart 2 takes the lock at 7 and calls [pop_off], which brings the depth
    back to zero and turns its interrupts on again; it still holds the
    lock, and its [release] stores the null owner, issues the fence and
    clears the lock word, and then ends in the panic of [pop_off], having
    read the interrupt state and written no depth. *)
Lemma release_without_decrement :
  exists s1 s2 s3,
    returns (machine 2) (acquire 7) zeroed tt s1 /\
    returns (machine 2) pop_off s1 tt s2 /\
    holds 7 2 s2 = true /\
    yields (machine 2) (release 7) s2
      (Panicked "pop_off - interruptible" s3
         [Event (LoadLocked 7) 1; Event (LoadCpu 7) (Some 2); Event MyCpu 2;
          Event (StoreCpu 7 None) tt; Event Synchronize tt; Event (LockRelease 7) tt;
          Event MyCpu 2; Event IntrGet true]) /\
    noff (cpus s2 2) = 0 /\ noff (cpus s3 2) = 0.
Proof.
  do 3 eexists. split; [|split; [|split; [|split; [|split]]]].
  - eexists. apply yields_intro with (n := 30%nat); [|exact I]. vm_compute. reflexivity.
  - eexists. apply yields_intro with (n := 30%nat); [|exact I]. vm_compute. reflexivity.
  - vm_compute. reflexivity.
  - apply yields_intro with (n := 30%nat); [|exact I]. vm_compute. reflexivity.
  - vm_compute. reflexivity.
  - vm_compute. reflexivity.
Qed.



(** C4. On the machine, [acquire(lk)] by the hart that already holds [lk]
    panics with "acquire": with enough fuel the run ends in that panic,
    its log contains no exchange, the lock is as it was; no run of the
    call returns and the call does not spin for ever. *)
Theorem acquire_reentrant_panics (c : hartid) (lk : lockptr) (s : state) :
  holds lk c s = true ->
  (exists s' log,
     yields (machine c) (acquire lk) s (Panicked "acquire" s' log) /\
     Forall (fun ev => is_exchange ev = false) log /\
     locks s' = locks s) /\
  (forall n r s' log, exec (machine c) n (acquire lk) s <> Done r s' log) /\
  ~ spins (machine c) (acquire lk) s.
Proof.
  intros H. destruct (acquire_machine_held c lk s H) as (s' & [log Hy] & Hl & _).
  assert (Hlog : Forall (fun ev => is_exchange ev = false) log).
  { destruct Hy as [_ [n Hn]]. specialize (Hn n (le_n n)).
    destruct (acquire_runs (machine c) lk n s) as (n1 & w1 & l1 & n2 & b & w2 & l2 & H1 & H2 & H3).
    { rewrite Hn; exact I. }
    destruct H3 as [[_ H3]|[_ (w3 & l3 & c3 & H3 & _)]]; rewrite Hn in H3; [|discriminate].
    inversion H3; subst.
    destruct (push_off_log (machine c) n1 s) as (w1' & l1' & E1 & _ & T1);
      [rewrite H1; exact I|].
    rewrite H1 in E1; inversion E1; subst.
    destruct (holding_runs (machine c) lk n2 w1') as (b' & w2' & l2' & E2 & Hh);
      [rewrite H2; exact I|].
    rewrite H2 in E2; inversion E2; subst.
    apply Forall_app; split.
    - apply untouched_no_exchange; assumption.
    - destruct Hh as [[_ ->]|(v & o & c0 & _ & -> & _)]; repeat constructor. }
  split; [|split].
  - exists s', log. auto.
  - intros n r s1 log1 E.
    assert (F : finished (exec (machine c) n (acquire lk) s)) by (rewrite E; exact I).
    rewrite (yields_exec _ _ _ _ _ _ Hy F) in E. discriminate.
  - intros Hs. destruct Hy as [_ [n Hn]]. apply (Hs n). rewrite (Hn n (le_n n)). exact I.
Qed.

(** Hart 2 calls [acquire] on the lock it holds. *)
Lemma acquire_reentrant_panics_witness :
  (exists s' log,
     yields (machine 2) (acquire 7) held_by_2 (Panicked "acquire" s' log) /\
     Forall (fun ev => is_exchange ev = false) log /\
     locks s' = locks held_by_2) /\
  (forall n r s' log, exec (machine 2) n (acquire 7) held_by_2 <> Done r s' log) /\
  ~ spins (machine 2) (acquire 7) held_by_2.
Proof.
  apply (acquire_reentrant_panics 2 7 held_by_2). vm_compute. reflexivity.
Defined.

(** C5. On the machine, [release(lk)] by a hart that does not hold [lk]
    panics with "release" in the very state it was called in, so the lock
    word and the owner are unchanged; this is so in particular right after
    [initlock(lk)], for a lock never acquired. *)
Theorem release_not_holding_panics (c : hartid) (lk : lockptr) :
  (forall s, holds lk c s = false ->
     exists log, yields (machine c) (release lk) s (Panicked "release" s log)) /\
  (forall c0 nm s0 s, returns (machine c0) (initlock lk nm) s0 tt s ->
     exists log, yields (machine c) (release lk) s (Panicked "release" s log)).
Proof.
  split.
  - intros s H. apply release_machine_not_held. assumption.
  - intros c0 nm s0 s H. apply release_machine_not_held.
    destruct (initlock_machine c0 lk nm s0) as (s' & R & Hl & _).
    destruct (returns_det _ _ _ _ _ _ _ _ H R) as [_ ->].
    unfold holds. rewrite Hl. reflexivity.
Qed.

(** Hart 1 calls [release] on the lock hart 2 holds, and on a lock that
    was only initialised. *)
Lemma release_not_holding_panics_witness :
  (exists log, yields (machine 1) (release 7) held_by_2 (Panicked "release" held_by_2 log)) /\
  (exists log, yields (machine 1) (release 7) fresh (Panicked "release" fresh log)).
Proof.
  split.
  - apply (proj1 (release_not_holding_panics 1 7) held_by_2). vm_compute. reflexivity.
  - apply (proj2 (release_not_holding_panics 1 7) 0 "tickslock"%string zeroed fresh).
    eexists. apply yields_intro with (n := 10%nat); [vm_compute; reflexivity | exact I].
Defined.

(** C6. On the machine, [pop_off] panics when the calling hart has
    interrupts enabled; panics when they are off and the depth is zero (or
    below one); and otherwise returns with the depth one lower and the
    saved state kept, with the interrupt-enable bit equal to the saved
    state when the new depth is zero and still off when it is not. *)
Theorem pop_off_cases (c : hartid) (s : state) :
  (sie s c = true ->
     panics (machine c) pop_off s "pop_off - interruptible" s) /\
  (sie s c = false -> noff (cpus s c) < 1 ->
     panics (machine c) pop_off s "pop_off" s) /\
  (sie s c = false -> 1 <= noff (cpus s c) ->
     exists s', returns (machine c) pop_off s tt s' /\
       noff (cpus s' c) = noff (cpus s c) - 1 /\
       intena (cpus s' c) = intena (cpus s c) /\
       (noff (cpus s' c) = 0 -> sie s' c = intena (cpus s c)) /\
       (noff (cpus s' c) <> 0 -> sie s' c = false)).
Proof.
  split; [|split].
  - apply pop_off_machine_enabled.
  - apply pop_off_machine_zero.
  - intros E L. destruct (pop_off_machine c s E L) as (s' & R & _ & Hn & Hi & Hs & _).
    exists s'. repeat split; try assumption.
    + intros H0. rewrite Hs, <- Hn. apply Z.eqb_eq in H0. rewrite H0. reflexivity.
    + intros H0. rewrite Hs, <- Hn. apply Z.eqb_neq in H0. rewrite H0. reflexivity.
Qed.

(** [pop_off] with interrupts enabled; with interrupts off at depth zero;
    and by hart 2 inside its critical section. *)
Lemma pop_off_cases_witness :
  panics (machine 2) pop_off zeroed "pop_off - interruptible" zeroed /\
  panics (machine 2) pop_off (set_sie 2 false zeroed) "pop_off" (set_sie 2 false zeroed) /\
  exists s', returns (machine 2) pop_off held_by_2 tt s' /\
    noff (cpus s' 2) = noff (cpus held_by_2 2) - 1 /\
    intena (cpus s' 2) = intena (cpus held_by_2 2) /\
    (noff (cpus s' 2) = 0 -> sie s' 2 = intena (cpus held_by_2 2)) /\
    (noff (cpus s' 2) <> 0 -> sie s' 2 = false).
Proof.
  split; [|split].
  - apply (proj1 (pop_off_cases 2 zeroed)). reflexivity.
  - apply (proj1 (proj2 (pop_off_cases 2 (set_sie 2 false zeroed)))).
    + reflexivity.
    + vm_compute. reflexivity.
  - apply (proj2 (proj2 (pop_off_cases 2 held_by_2))).
    + reflexivity.
    + vm_compute. discriminate.
Defined.

(** C7. On the machine, starting at depth zero, every balanced sequence of
    [push_off] and [pop_off] calls, however deeply nested, runs to its end
    without a panic and leaves the depth at zero and the interrupt-enable
    bit of the calling hart as it was before the first call; interrupts
    that were off stay off. *)
Theorem balanced_nesting_restores (c : hartid) (ops : list nest_op) (s : state) :
  noff (cpus s c) = 0 ->
  balanced ops = true ->
  exists s', returns (machine c) (nest_calls ops) s tt s' /\
    noff (cpus s' c) = 0 /\
    sie s' c = sie s c /\
    (sie s c = false -> sie s' c = false).
Proof.
  intros H0 Hb.
  destruct (nest_calls_run c ops O s) as (s' & R & Hn & Hs); try assumption.
  { intros H; contradiction. }
  unfold ambient in Hs. rewrite H0 in Hs. cbn in Hs.
  exists s'. repeat split; try assumption. intros E. rewrite Hs. assumption.
Qed.

(** push, push, pop, push, pop, pop on the zeroed machine. *)
Lemma balanced_nesting_restores_witness :
  exists s', returns (machine 2) (nest_calls [Push; Push; Pop; Push; Pop; Pop]) zeroed tt s' /\
    noff (cpus s' 2) = 0 /\
    sie s' 2 = sie zeroed 2 /\
    (sie zeroed 2 = false -> sie s' 2 = false).
Proof.
  apply (balanced_nesting_restores 2 [Push; Push; Pop; Push; Pop; Pop] zeroed);
    reflexivity.
Defined.

(** C8, as amended. On the machine, a hart at depth zero that acquires two
    distinct free locks [L1] then [L2] and releases [L2] then [L1] completes
    all four calls; its nesting depth reads 1 between the two acquires, 2
    after the second acquire, and 0 after both releases. *)
Theorem nested_locks_depth (c : hartid) (L1 L2 : lockptr) (s : state) :
  L1 <> L2 ->
  locked (locks s L1) = 0 ->
  locked (locks s L2) = 0 ->
  noff (cpus s c) = 0 ->
  exists s1 s2 s3 s4,
    returns (machine c) (acquire L1) s tt s1 /\ noff (cpus s1 c) = 1 /\
    returns (machine c) (acquire L2) s1 tt s2 /\ noff (cpus s2 c) = 2 /\
    returns (machine c) (release L2) s2 tt s3 /\
    returns (machine c) (release L1) s3 tt s4 /\ noff (cpus s4 c) = 0.
Proof.
  exact (nested_locks_run c L1 L2 s).
Qed.

(** Hart 2 nests the locks at 7 and 9 on the zeroed machine. *)
Lemma nested_locks_depth_witness :
  exists s1 s2 s3 s4,
    returns (machine 2) (acquire 7) zeroed tt s1 /\ noff (cpus s1 2) = 1 /\
    returns (machine 2) (acquire 9) s1 tt s2 /\ noff (cpus s2 2) = 2 /\
    returns (machine 2) (release 9) s2 tt s3 /\
    returns (machine 2) (release 7) s3 tt s4 /\ noff (cpus s4 2) = 0.
Proof.
  apply (nested_locks_depth 2 7 9 zeroed); [lia | reflexivity | reflexivity | reflexivity].
Defined.

(** C8, as stated, fails on the zeroed machine for hart 2 and the locks at
    7 and 9: between the two acquires the depth reads 1, not 2. *)
Lemma nested_locks_between_acquires :
  ~ (forall s1 s2 s3 s4,
       returns (machine 2) (acquire 7) zeroed tt s1 ->
       returns (machine 2) (acquire 9) s1 tt s2 ->
       returns (machine 2) (release 9) s2 tt s3 ->
       returns (machine 2) (release 7) s3 tt s4 ->
       noff (cpus s1 2) = 2 /\ noff (cpus s4 2) = 0).
Proof.
  intros H.
  destruct (nested_locks_run 2 7 9 zeroed) as (s1 & s2 & s3 & s4 & R1 & N1 & R2 & _ & R3 & R4 & _);
    [lia | reflexivity | reflexivity | reflexivity |].
  destruct (H s1 s2 s3 s4 R1 R2 R3 R4) as [N _]. lia.
Qed.

(** C9. On the machine of hart [me], [timerinit] returns, and then the
    comparator register of that hart holds the timer count read during the
    call plus the interval 1000000, in 64-bit arithmetic (the plain sum
    whenever it fits), slot 3 of the hart's scratch row holds the address
    of that comparator register and slot 4 holds the interval. *)
Theorem timerinit_programs (p : platform) (me : hartid) (s : mstate) :
  0 <= me < 2 ^ 31 ->
  exists s', returns (boot_machine me) (timerinit p) s tt s' /\
    mem s' (CLINT_MTIMECMP p me) = to_uint64 (mem s (CLINT_MTIME p) + 1000000) /\
    (0 <= mem s (CLINT_MTIME p) -> mem s (CLINT_MTIME p) + 1000000 < 2 ^ 64 ->
     mem s' (CLINT_MTIMECMP p me) = mem s (CLINT_MTIME p) + 1000000) /\
    timer_scratch s' me 3 = CLINT_MTIMECMP p me /\
    timer_scratch s' me 4 = 1000000.
Proof.
  intros Hme. eexists. split.
  - unfold timerinit. cbv zeta. eexists.
    apply yields_intro with (n := 20%nat); [|exact I].
    rewrite exec_bind_call; cbn [boot_machine fst snd mem timer_scratch csrs].
    rewrite (to_int_small me Hme).
    repeat bstep. reflexivity.
  - cbn [mem timer_scratch]. rewrite !upd_same.
    split; [reflexivity|]. split; [|split].
    + intros H0 H1. unfold to_uint64. apply Z.mod_small. lia.
    + rewrite upd_other by discriminate. rewrite !upd_same. reflexivity.
    + reflexivity.
Qed.

(** Hart 1 of the QEMU board, the timer at 5000. *)
Lemma timerinit_programs_witness :
  exists s', returns (boot_machine 1) (timerinit qemu_virt) at_reset tt s' /\
    mem s' (CLINT_MTIMECMP qemu_virt 1) =
      to_uint64 (mem at_reset (CLINT_MTIME qemu_virt) + 1000000) /\
    (0 <= mem at_reset (CLINT_MTIME qemu_virt) ->
     mem at_reset (CLINT_MTIME qemu_virt) + 1000000 < 2 ^ 64 ->
     mem s' (CLINT_MTIMECMP qemu_virt 1) = mem at_reset (CLINT_MTIME qemu_virt) + 1000000) /\
    timer_scratch s' 1 3 = CLINT_MTIMECMP qemu_virt 1 /\
    timer_scratch s' 1 4 = 1000000.
Proof.
  apply (timerinit_programs qemu_virt 1 at_reset). lia.
Defined.

(** C10. [initlock(lk, name)] reads nothing and cannot panic: against any
    environment a run that ends has returned after exactly three stores,
    the name, 0 into the lock word and the null owner.  On the machine it
    returns from every state, and afterwards no hart holds the lock, also
    when some hart held it before. *)
Theorem initlock_unconditional (lk : lockptr) (nm : string) :
  (forall (W : Type) (h : handler kernE W) (n : nat) (w : W),
     finished (exec h n (initlock lk nm) w) ->
     exists w', exec h n (initlock lk nm) w =
       Done tt w' [Event (StoreName lk nm) tt; Event (StoreLocked lk 0) tt;
                   Event (StoreCpu lk None) tt]) /\
  (forall (c : hartid) (s : state),
     exists s', returns (machine c) (initlock lk nm) s tt s' /\
       locks s' lk = mkSpinlock nm 0 None /\
       forall c', holds lk c' s' = false).
Proof.
  split.
  - intros W h n w F. unfold initlock in *.
    do 3 run_call F. repeat match goal with u : unit |- _ => destruct u end.
    cbn [emit app]. eexists; reflexivity.
  - intros c s. destruct (initlock_machine c lk nm s) as (s' & R & Hl & _).
    exists s'. repeat split; try assumption.
    intros c'. unfold holds. rewrite Hl. reflexivity.
Qed.

(** [initlock] on the lock hart 2 holds. *)
Lemma initlock_unconditional_witness :
  exists w', exec (machine 1) 10 (initlock 7 "tickslock") held_by_2 =
    Done tt w' [Event (StoreName 7 "tickslock") tt; Event (StoreLocked 7 0) tt;
                Event (StoreCpu 7 None) tt].
Proof.
  apply (proj1 (initlock_unconditional 7 "tickslock") state (machine 1) 10%nat held_by_2).
  vm_compute. exact I.
Defined.

(* ===================================================================== *)
(** * Further properties: device numbers *)
(* ===================================================================== *)

Lemma land_FFFF (x : Z) : Z.land x 0xFFFF = x mod 2 ^ 16.
Proof. change 0xFFFF with (Z.ones 16). apply Z.land_ones. lia. Qed.

Lemma minor_mkdev_bits (m n : Z) : minor (mkdev m n) = n mod 2 ^ 16.
Proof.
  unfold minor, mkdev, to_uint. rewrite land_FFFF.
  apply Z.bits_inj'. intros i Hi.
  destruct (Z.lt_ge_cases i 16) as [L|L].
  - rewrite !Z.mod_pow2_bits_low by lia.
    rewrite Z.lor_spec, Z.shiftl_spec_low by lia. reflexivity.
  - rewrite !Z.mod_pow2_bits_high by lia. reflexivity.
Qed.

Lemma major_mkdev_bits (m n : Z) :
  major (mkdev m n) = Z.lor m (Z.shiftr n 16) mod 2 ^ 16.
Proof.
  unfold major, mkdev, to_uint. rewrite land_FFFF.
  apply Z.bits_inj'. intros i Hi.
  destruct (Z.lt_ge_cases i 16) as [L|L].
  - rewrite !Z.mod_pow2_bits_low by lia.
    rewrite Z.shiftr_spec by lia. rewrite Z.mod_pow2_bits_low by lia.
    rewrite !Z.lor_spec, Z.shiftl_spec, Z.shiftr_spec by lia.
    f_equal. f_equal. lia.
  - rewrite !Z.mod_pow2_bits_high by lia. reflexivity.
Qed.

(** X1. A device number made by [mkdev] from a major and a minor number
    that each fit in 16 bits gives both back through [major] and
    [minor]. *)
Theorem mkdev_round_trip (m n : Z) :
  0 <= m < 2 ^ 16 -> 0 <= n < 2 ^ 16 ->
  major (mkdev m n) = m /\ minor (mkdev m n) = n.
Proof.
  intros Hm Hn. rewrite major_mkdev_bits, minor_mkdev_bits.
  rewrite (Z.shiftr_div_pow2 n 16) by lia.
  rewrite (Z.div_small n (2 ^ 16)) by lia.
  rewrite Z.lor_0_r, !Z.mod_small by lia. auto.
Qed.

(** The console, device 1, unit 0; and the largest numbers that fit. *)
Lemma mkdev_round_trip_witness :
  (major (mkdev 1 0) = 1 /\ minor (mkdev 1 0) = 0) /\
  (major (mkdev 65535 65535) = 65535 /\ minor (mkdev 65535 65535) = 65535).
Proof.
  split.
  - apply (mkdev_round_trip 1 0); lia.
  - apply (mkdev_round_trip 65535 65535); lia.
Defined.

(** X2. Every 32-bit device number is the [mkdev] of its own [major] and
    [minor] parts: the two halves lose nothing. *)
Theorem mkdev_major_minor (d : Z) :
  0 <= d < 2 ^ 32 -> mkdev (major d) (minor d) = d.
Proof.
  intros H. unfold mkdev, major, minor, to_uint. rewrite !land_FFFF.
  rewrite <- (Z.mod_small d (2 ^ 32)) at 3 by lia.
  apply Z.bits_inj'. intros i Hi.
  destruct (Z.lt_ge_cases i 32) as [L|L].
  - rewrite !Z.mod_pow2_bits_low by lia.
    rewrite Z.lor_spec.
    destruct (Z.lt_ge_cases i 16) as [L'|L'].
    + rewrite Z.shiftl_spec_low by lia. rewrite Z.mod_pow2_bits_low by lia. reflexivity.
    + rewrite Z.shiftl_spec by lia. rewrite Z.mod_pow2_bits_low by lia.
      rewrite Z.shiftr_spec by lia. rewrite Z.mod_pow2_bits_high by lia.
      rewrite orb_false_r. f_equal. lia.
  - rewrite !Z.mod_pow2_bits_high by lia. reflexivity.
Qed.

Lemma mkdev_major_minor_witness :
  mkdev (major 0xdeadbeef) (minor 0xdeadbeef) = 0xdeadbeef.
Proof. apply (mkdev_major_minor 0xdeadbeef). lia. Defined.

(** X3. [major] and [minor] always answer a 16-bit number, and [mkdev] a
    32-bit one, whatever they are given. *)
Theorem device_number_ranges (d m n : Z) :
  0 <= major d < 2 ^ 16 /\ 0 <= minor d < 2 ^ 16 /\ 0 <= mkdev m n < 2 ^ 32.
Proof.
  unfold major, minor, mkdev, to_uint. rewrite !land_FFFF.
  repeat split; try apply Z.mod_pos_bound; lia.
Qed.

(** X4. [mkdev] checks nothing: of a minor number wider than 16 bits the
    upper bits are or-ed into the major part, and of a major number wider
    than 16 bits the upper bits are dropped, so that [m] and [m + 65536]
    make the same device number. *)
Theorem mkdev_out_of_range (m n : Z) :
  major (mkdev m n) = Z.lor m (Z.shiftr n 16) mod 2 ^ 16 /\
  minor (mkdev m n) = n mod 2 ^ 16 /\
  mkdev (m + 2 ^ 16) n = mkdev m n.
Proof.
  split; [apply major_mkdev_bits|]. split; [apply minor_mkdev_bits|].
  unfold mkdev, to_uint.
  apply Z.bits_inj'. intros i Hi.
  destruct (Z.lt_ge_cases i 32) as [L|L].
  - rewrite !Z.mod_pow2_bits_low by lia.
    rewrite !Z.lor_spec. f_equal.
    destruct (Z.lt_ge_cases i 16) as [L'|L'].
    + rewrite !Z.shiftl_spec_low by lia. reflexivity.
    + rewrite !Z.shiftl_spec by lia.
      rewrite <- (Z.mod_pow2_bits_low (m + 2 ^ 16) 16) by lia.
      rewrite <- (Z.mod_pow2_bits_low m 16 (i - 16)) by lia.
      f_equal. rewrite <- (Z.mul_1_l (2 ^ 16)) at 1.
      apply Z.mod_add. lia.
  - rewrite !Z.mod_pow2_bits_high by lia. reflexivity.
Qed.

(* ===================================================================== *)
(** * Further properties: spin locks *)
(* ===================================================================== *)

Lemma returns_not_panics R (t : prog kernE R) c s r s1 msg s2 :
  returns (machine c) t s r s1 -> panics (machine c) t s msg s2 -> False.
Proof.
  intros [l1 H1] [l2 H2]. pose proof (yields_det _ _ _ _ _ _ H1 H2). discriminate.
Qed.

Lemma yields_not_spins R (t : prog kernE R) c s o :
  yields (machine c) t s o -> spins (machine c) t s -> False.
Proof.
  intros [F [n Hn]] Hs. apply (Hs n). rewrite (Hn n (le_n n)). exact F.
Qed.

(** X5. On the machine, [push_off] called at a depth that is an [int]
    below the largest returns: it turns the calling hart's interrupts off,
    adds one to its depth, which is an [int] still, records the state the
    interrupts had only when the depth was zero (a nested call keeps the
    saved state), and changes no lock and no other hart's record. *)
Theorem push_off_effect (c : hartid) (s : state) :
  - 2 ^ 31 <= noff (cpus s c) < 2 ^ 31 - 1 ->
  exists s', returns (machine c) push_off s tt s' /\
    locks s' = locks s /\
    sie s' c = false /\
    noff (cpus s' c) = noff (cpus s c) + 1 /\
    - 2 ^ 31 < noff (cpus s' c) < 2 ^ 31 /\
    intena (cpus s' c) = (if noff (cpus s c) =? 0 then sie s c else intena (cpus s c)) /\
    (forall c', c' <> c -> cpus s' c' = cpus s c' /\ sie s' c' = sie s c').
Proof.
  intros B. destruct (push_off_machine c s) as (s' & R & K & E & N & I & O).
  exists s'. repeat (split; [assumption|]). split; [lia|]. split; assumption.
Qed.

(** Hart 2 at depth zero on the zeroed machine. *)
Lemma push_off_effect_witness :
  exists s', returns (machine 2) push_off zeroed tt s' /\
    locks s' = locks zeroed /\
    sie s' 2 = false /\
    noff (cpus s' 2) = noff (cpus zeroed 2) + 1 /\
    - 2 ^ 31 < noff (cpus s' 2) < 2 ^ 31 /\
    intena (cpus s' 2) =
      (if noff (cpus zeroed 2) =? 0 then sie zeroed 2 else intena (cpus zeroed 2)) /\
    (forall c', c' <> 2 -> cpus s' c' = cpus zeroed c' /\ sie s' c' = sie zeroed c').
Proof.
  apply (push_off_effect 2 zeroed). cbn. lia.
Defined.

(** X6. On the machine, [acquire(lk)] on a lock whose word is clear,
    called at a depth that is an [int] below the largest, returns with the
    word at 1, the caller as owner and the name kept, interrupts off on
    the caller, its depth one higher, an [int] still, and the earlier
    interrupt state saved if the depth was zero; no other lock and no
    other hart's record has changed. *)
Theorem acquire_effect (c : hartid) (lk : lockptr) (s : state) :
  locked (locks s lk) = 0 ->
  - 2 ^ 31 <= noff (cpus s c) < 2 ^ 31 - 1 ->
  exists s', returns (machine c) (acquire lk) s tt s' /\
    locks s' lk = mkSpinlock (name (locks s lk)) 1 (Some c) /\
    (forall lk', lk' <> lk -> locks s' lk' = locks s lk') /\
    sie s' c = false /\
    noff (cpus s' c) = noff (cpus s c) + 1 /\
    - 2 ^ 31 < noff (cpus s' c) < 2 ^ 31 /\
    intena (cpus s' c) = (if noff (cpus s c) =? 0 then sie s c else intena (cpus s c)) /\
    (forall c', c' <> c -> cpus s' c' = cpus s c' /\ sie s' c' = sie s c').
Proof.
  intros F B.
  destruct (acquire_machine_free c lk s F) as (s' & R & K & Fr & E & N & I & O).
  exists s'. repeat (split; [assumption|]). split; [lia|]. split; assumption.
Qed.

Lemma acquire_effect_witness :
  exists s', returns (machine 2) (acquire 7) zeroed tt s' /\
    locks s' 7 = mkSpinlock (name (locks zeroed 7)) 1 (Some 2) /\
    (forall lk', lk' <> 7 -> locks s' lk' = locks zeroed lk') /\
    sie s' 2 = false /\
    noff (cpus s' 2) = noff (cpus zeroed 2) + 1 /\
    - 2 ^ 31 < noff (cpus s' 2) < 2 ^ 31 /\
    intena (cpus s' 2) =
      (if noff (cpus zeroed 2) =? 0 then sie zeroed 2 else intena (cpus zeroed 2)) /\
    (forall c', c' <> 2 -> cpus s' c' = cpus zeroed c' /\ sie s' c' = sie zeroed c').
Proof.
  apply (acquire_effect 2 7 zeroed).
  - reflexivity.
  - cbn. lia.
Defined.

(** X7. On the machine, [release(lk)] by the holder, made with interrupts
    off at depth at least one, returns with the lock word clear, the owner
    null and the name kept, the depth one lower, and interrupts back in
    the saved state exactly when the depth has reached zero; no other lock
    and no other hart's record has changed. *)
Theorem release_effect (c : hartid) (lk : lockptr) (s : state) :
  holds lk c s = true -> sie s c = false -> 1 <= noff (cpus s c) ->
  exists s', returns (machine c) (release lk) s tt s' /\
    locks s' lk = mkSpinlock (name (locks s lk)) 0 None /\
    (forall lk', lk' <> lk -> locks s' lk' = locks s lk') /\
    noff (cpus s' c) = noff (cpus s c) - 1 /\
    intena (cpus s' c) = intena (cpus s c) /\
    sie s' c = (if noff (cpus s c) - 1 =? 0 then intena (cpus s c) else false) /\
    (forall c', c' <> c -> cpus s' c' = cpus s c' /\ sie s' c' = sie s c').
Proof.
  exact (release_machine_held c lk s).
Qed.

Lemma release_effect_witness :
  exists s', returns (machine 2) (release 7) held_by_2 tt s' /\
    locks s' 7 = mkSpinlock (name (locks held_by_2 7)) 0 None /\
    (forall lk', lk' <> 7 -> locks s' lk' = locks held_by_2 lk') /\
    noff (cpus s' 2) = noff (cpus held_by_2 2) - 1 /\
    intena (cpus s' 2) = intena (cpus held_by_2 2) /\
    sie s' 2 = (if noff (cpus held_by_2 2) - 1 =? 0
                then intena (cpus held_by_2 2) else false) /\
    (forall c', c' <> 2 -> cpus s' c' = cpus held_by_2 c' /\ sie s' c' = sie held_by_2 c').
Proof.
  apply (release_effect 2 7 held_by_2); vm_compute; (reflexivity || discriminate).
Defined.

(** X8. On the machine of one hart, what [acquire(lk)] does is decided by
    the lock alone: it returns exactly when the lock word is clear, panics
    exactly when the caller holds the lock, and spins for ever exactly
    when the word is set and the caller is not the owner. *)
Theorem acquire_outcomes (c : hartid) (lk : lockptr) (s : state) :
  ((exists s', returns (machine c) (acquire lk) s tt s') <->
     locked (locks s lk) = 0) /\
  ((exists s', panics (machine c) (acquire lk) s "acquire" s') <->
     holds lk c s = true) /\
  (spins (machine c) (acquire lk) s <->
     holds lk c s = false /\ locked (locks s lk) <> 0).
Proof.
  assert (Hfree : locked (locks s lk) = 0 -> holds lk c s = false).
  { intros H. unfold holds. rewrite H. reflexivity. }
  destruct (holds lk c s) eqn:Hh.
  - (* the caller holds the lock *)
    destruct (acquire_machine_held c lk s Hh) as (s1 & P1 & _).
    assert (Hl : locked (locks s lk) <> 0) by (intros H; apply Hfree in H; discriminate).
    split; [|split].
    + split; [|contradiction]. intros [s' R]. exfalso. eapply returns_not_panics; eassumption.
    + split; [reflexivity | eauto].
    + split; [|intros [H _]; discriminate].
      intros Hs. exfalso. destruct P1 as [l P1]. eapply yields_not_spins; eassumption.
  - destruct (Z.eq_dec (locked (locks s lk)) 0) as [Hl|Hl].
    + (* the lock word is clear *)
      destruct (acquire_machine_free c lk s Hl) as (s1 & R1 & _).
      split; [|split].
      * split; eauto.
      * split; [|discriminate]. intros [s' P]. exfalso. eapply returns_not_panics; eassumption.
      * split; [|intros [_ H]; contradiction].
        intros Hs. exfalso. destruct R1 as [l R1]. eapply yields_not_spins; eassumption.
    + (* another hart holds the lock *)
      pose proof (acquire_machine_spins c lk s Hh Hl) as Hs.
      split; [|split].
      * split; [|contradiction]. intros [s' [l R]]. exfalso. eapply yields_not_spins; eassumption.
      * split; [|discriminate]. intros [s' [l P]]. exfalso. eapply yields_not_spins; eassumption.
      * split; auto.
Qed.

(** X9. Mutual exclusion, call by call: while hart [c] holds [lk], an
    [acquire(lk)] by any other hart never ends and at every step leaves
    the lock set and owned by [c], and a [release(lk)] by any other hart
    panics having changed nothing. *)
Theorem held_lock_excludes (c h : hartid) (lk : lockptr) (s : state) :
  held lk c s -> h <> c ->
  spins (machine h) (acquire lk) s /\
  always (machine h) (acquire lk) s (held lk c) /\
  panics (machine h) (release lk) s "release" s.
Proof.
  intros Hs Hne.
  assert (Hh : holds lk h s = false).
  { destruct (holds lk h s) eqn:E; [|reflexivity].
    apply holds_iff in E. destruct E as [_ E], Hs as [_ Hs]. congruence. }
  split; [|split].
  - apply acquire_machine_spins; [assumption | apply Hs].
  - apply acquire_always. assumption.
  - apply release_machine_not_held. assumption.
Qed.

(** Hart 1 against the lock hart 2 holds. *)
Lemma held_lock_excludes_witness :
  spins (machine 1) (acquire 7) held_by_2 /\
  always (machine 1) (acquire 7) held_by_2 (held 7 2) /\
  panics (machine 1) (release 7) held_by_2 "release" held_by_2.
Proof.
  apply (held_lock_excludes 2 1 7 held_by_2).
  - split; vm_compute; (reflexivity || discriminate).
  - lia.
Defined.

(** X10. [release] frees the lock before [pop_off] checks anything: when
    the holder calls it with interrupts enabled, or at depth below one,
    the call ends in the panic of [pop_off] with the lock word already
    clear and the owner already null. *)
Theorem release_frees_before_panic (c : hartid) (lk : lockptr) (s : state) :
  holds lk c s = true ->
  (sie s c = true ->
     exists s', panics (machine c) (release lk) s "pop_off - interruptible" s' /\
       locks s' lk = mkSpinlock (name (locks s lk)) 0 None) /\
  (sie s c = false -> noff (cpus s c) < 1 ->
     exists s', panics (machine c) (release lk) s "pop_off" s' /\
       locks s' lk = mkSpinlock (name (locks s lk)) 0 None).
Proof.
  intros H. unfold holds in H. apply andb_true_iff in H. destruct H as [H1 H2].
  apply negb_true_iff in H1.
  split.
  - intros E. eexists. split.
    + unfold release, holding, pop_off. mrun 30%nat. rewrite H1. repeat mstep.
      rewrite H2. cbn [negb]. repeat mstep. rewrite E. repeat mstep. reflexivity.
    + msimpl. reflexivity.
  - intros E L. apply Z.ltb_lt in L. eexists. split.
    + unfold release, holding, pop_off. mrun 30%nat. rewrite H1. repeat mstep.
      rewrite H2. cbn [negb]. repeat mstep. rewrite E. repeat mstep.
      rewrite L. repeat mstep. reflexivity.
    + msimpl. reflexivity.
Qed.

(** Hart 2 releases after enabling interrupts inside its critical
    section; and releases at depth zero. *)
Lemma release_frees_before_panic_witness :
  (exists s', panics (machine 2) (release 7) careless "pop_off - interruptible" s' /\
     locks s' 7 = mkSpinlock (name (locks careless 7)) 0 None) /\
  (exists s', panics (machine 2) (release 7) (set_noff 2 0 held_by_2) "pop_off" s' /\
     locks s' 7 = mkSpinlock (name (locks (set_noff 2 0 held_by_2) 7)) 0 None).
Proof.
  split.
  - apply (proj1 (release_frees_before_panic 2 7 careless ltac:(vm_compute; reflexivity))).
    reflexivity.
  - apply (proj2 (release_frees_before_panic 2 7 (set_noff 2 0 held_by_2)
                    ltac:(vm_compute; reflexivity))).
    + reflexivity.
    + vm_compute. reflexivity.
Defined.

(** X11. Round trip: from a state in which the calling hart is at depth
    zero, or deeper with interrupts off, the depth an [int] below the
    largest, [initlock(lk)], [acquire(lk)] and [release(lk)] in a row all
    return and leave the lock exactly as [initlock] left it, the depth and
    the interrupt bit of the caller as they were, and every other lock
    untouched; in between the depth is one higher, an [int] still. *)
Theorem init_acquire_release (c : hartid) (lk : lockptr) (nm : string) (s : state) :
  0 <= noff (cpus s c) < 2 ^ 31 - 1 ->
  (noff (cpus s c) <> 0 -> sie s c = false) ->
  exists s1 s2 s3,
    returns (machine c) (initlock lk nm) s tt s1 /\
    returns (machine c) (acquire lk) s1 tt s2 /\
    returns (machine c) (release lk) s2 tt s3 /\
    0 < noff (cpus s2 c) < 2 ^ 31 /\
    locks s3 lk = locks s1 lk /\
    locks s3 lk = mkSpinlock nm 0 None /\
    noff (cpus s3 c) = noff (cpus s c) /\
    sie s3 c = sie s c /\
    (forall l, l <> lk -> locks s3 l = locks s l).
Proof.
  intros Hd Hoff.
  destruct (initlock_machine c lk nm s) as (s1 & R1 & K1 & Fr1 & C1 & I1).
  assert (F1 : locked (locks s1 lk) = 0) by (rewrite K1; reflexivity).
  destruct (acquire_machine_free c lk s1 F1) as (s2 & R2 & K2 & Fr2 & E2 & N2 & In2 & _).
  assert (H2 : holds lk c s2 = true) by (eapply holds_of_record; eassumption).
  destruct (release_machine_held c lk s2 H2 E2) as (s3 & R3 & K3 & Fr3 & N3 & _ & E3 & _);
    [rewrite N2, C1; lia|].
  exists s1, s2, s3. repeat (split; [assumption|]).
  split; [rewrite N2, C1; lia|].
  rewrite K3, K2, K1. cbn [name].
  split; [reflexivity|]. split; [reflexivity|]. split; [rewrite N3, N2, C1; lia|].
  split.
  - rewrite E3, N2, In2, C1, I1.
    replace (noff (cpus s c) + 1 - 1) with (noff (cpus s c)) by lia.
    destruct (noff (cpus s c) =? 0) eqn:E0; [reflexivity|].
    symmetry. apply Hoff. apply Z.eqb_neq. assumption.
  - intros l Hl. rewrite Fr3, Fr2, Fr1 by assumption. reflexivity.
Qed.

Lemma init_acquire_release_witness :
  exists s1 s2 s3,
    returns (machine 2) (initlock 7 "tickslock") zeroed tt s1 /\
    returns (machine 2) (acquire 7) s1 tt s2 /\
    returns (machine 2) (release 7) s2 tt s3 /\
    0 < noff (cpus s2 2) < 2 ^ 31 /\
    locks s3 7 = locks s1 7 /\
    locks s3 7 = mkSpinlock "tickslock" 0 None /\
    noff (cpus s3 2) = noff (cpus zeroed 2) /\
    sie s3 2 = sie zeroed 2 /\
    (forall l, l <> 7 -> locks s3 l = locks zeroed l).
Proof.
  apply (init_acquire_release 2 7 "tickslock" zeroed).
  - cbn. lia.
  - intros H. exfalso. apply H. reflexivity.
Defined.

Lemma acquire_all_run (c : hartid) (ls : list lockptr) : forall (s : state),
  NoDup ls ->
  (forall l, In l ls -> locked (locks s l) = 0) ->
  0 <= noff (cpus s c) ->
  exists s1, returns (machine c) (acquire_all ls) s tt s1 /\
    noff (cpus s1 c) = noff (cpus s c) + Z.of_nat (List.length ls) /\
    (ls <> [] -> sie s1 c = false) /\
    ambient c s1 = ambient c s /\
    (forall l, In l ls -> locks s1 l = mkSpinlock (name (locks s l)) 1 (Some c)) /\
    (forall l, ~ In l ls -> locks s1 l = locks s l).
Proof.
  induction ls as [|l ls IH]; intros s Hnd Hfree Hd; cbn [acquire_all List.length].
  - exists s. split; [apply returns_Ret|].
    split; [cbn; lia|]. split; [congruence|]. split; [reflexivity|].
    split; [intros l []|reflexivity].
  - inversion Hnd as [|? ? Hnot Hnd']; subst.
    destruct (acquire_machine_free c l s (Hfree l (or_introl eq_refl)))
      as (s0 & R0 & K0 & Fr0 & E0 & N0 & I0 & _).
    assert (Hl : forall l', In l' ls -> l' <> l) by (intros l' Hin ->; contradiction).
    destruct (IH s0) as (s1 & R1 & N1 & E1 & A1 & K1 & Fr1); [assumption| |lia|].
    { intros l' Hin. rewrite Fr0 by auto. apply Hfree. right; assumption. }
    exists s1. split; [eapply returns_bind; eassumption|].
    split; [rewrite N1, N0; lia|].
    split.
    { intros _. destruct ls as [|l' ls'].
      - destruct (returns_det _ _ _ _ _ _ _ _ R1 (returns_Ret _ _ tt s0)) as [_ ->].
        assumption.
      - apply E1. discriminate. }
    split.
    { rewrite A1. unfold ambient. rewrite N0, I0.
      replace (noff (cpus s c) + 1 =? 0) with false by (symmetry; apply Z.eqb_neq; lia).
      reflexivity. }
    split.
    { intros l' [<-|Hin].
      - rewrite Fr1 by assumption. assumption.
      - rewrite K1 by assumption. rewrite Fr0 by auto. reflexivity. }
    intros l' Hn. rewrite Fr1 by (intros Hin; apply Hn; right; assumption).
    apply Fr0. intros ->. apply Hn. left; reflexivity.
Qed.

Lemma release_all_run (c : hartid) (ls : list lockptr) : forall (s : state),
  NoDup ls ->
  (forall l, In l ls -> holds l c s = true) ->
  Z.of_nat (List.length ls) <= noff (cpus s c) ->
  (ls <> [] -> sie s c = false) ->
  exists s2, returns (machine c) (release_all ls) s tt s2 /\
    noff (cpus s2 c) = noff (cpus s c) - Z.of_nat (List.length ls) /\
    (ls <> [] -> ambient c s2 = intena (cpus s c)) /\
    (ls <> [] -> noff (cpus s2 c) <> 0 -> sie s2 c = false) /\
    (forall l, In l ls -> locks s2 l = mkSpinlock (name (locks s l)) 0 None) /\
    (forall l, ~ In l ls -> locks s2 l = locks s l).
Proof.
  induction ls as [|l ls IH]; intros s Hnd Hheld Hd Hoff; cbn [release_all List.length] in *.
  - exists s. split; [apply returns_Ret|].
    split; [cbn; lia|]. split; [congruence|]. split; [congruence|].
    split; [intros l []|reflexivity].
  - inversion Hnd as [|? ? Hnot Hnd']; subst.
    destruct (release_machine_held c l s (Hheld l (or_introl eq_refl)))
      as (s0 & R0 & K0 & Fr0 & N0 & I0 & E0 & _); [apply Hoff; discriminate | lia |].
    assert (Hl : forall l', In l' ls -> l' <> l) by (intros l' Hin ->; contradiction).
    destruct (IH s0) as (s2 & R2 & N2 & A2 & E2 & K2 & Fr2); [assumption| |lia| |].
    { intros l' Hin. unfold holds. rewrite Fr0 by auto. apply Hheld. right; assumption. }
    { intros Hne. rewrite E0.
      replace (noff (cpus s c) - 1 =? 0) with false; [reflexivity|].
      symmetry. apply Z.eqb_neq. destruct ls; [contradiction|]. cbn [List.length] in Hd. lia. }
    exists s2. split; [eapply returns_bind; eassumption|].
    split; [rewrite N2, N0; lia|].
    assert (Hamb : ambient c s2 = intena (cpus s c)).
    { destruct ls as [|l' ls'].
      - destruct (returns_det _ _ _ _ _ _ _ _ R2 (returns_Ret _ _ tt s0)) as [_ ->].
        unfold ambient. rewrite N0, I0, E0.
        destruct (noff (cpus s c) - 1 =? 0); reflexivity.
      - rewrite A2 by discriminate. assumption. }
    assert (Hsie : noff (cpus s2 c) <> 0 -> sie s2 c = false).
    { destruct ls as [|l' ls'].
      - destruct (returns_det _ _ _ _ _ _ _ _ R2 (returns_Ret _ _ tt s0)) as [_ ->].
        intros Hn. rewrite E0. rewrite N0 in Hn. apply Z.eqb_neq in Hn. rewrite Hn.
        reflexivity.
      - apply E2. discriminate. }
    split; [auto|]. split; [auto|].
    split.
    { intros l' [<-|Hin].
      - rewrite Fr2 by assumption. assumption.
      - rewrite K2 by assumption. rewrite Fr0 by auto. reflexivity. }
    intros l' Hn. rewrite Fr2 by (intros Hin; apply Hn; right; assumption).
    apply Fr0. intros ->. apply Hn. left; reflexivity.
Qed.

(** X12. Any number of distinct free locks nest: from depth zero, taking
    them one after the other returns with all of them held, interrupts off
    and the depth equal to their number; releasing them afterwards, in any
    order, returns with every one of them free again, the depth at zero,
    the interrupt bit as it was before the first acquire, and all other
    locks untouched. *)
Theorem locks_nest (c : hartid) (ls ls' : list lockptr) (s : state) :
  NoDup ls ->
  Permutation ls ls' ->
  (forall l, In l ls -> locked (locks s l) = 0) ->
  noff (cpus s c) = 0 ->
  exists s1 s2,
    returns (machine c) (acquire_all ls) s tt s1 /\
    noff (cpus s1 c) = Z.of_nat (List.length ls) /\
    (forall l, In l ls -> holds l c s1 = true) /\
    (ls <> [] -> sie s1 c = false) /\
    returns (machine c) (release_all ls') s1 tt s2 /\
    noff (cpus s2 c) = 0 /\
    sie s2 c = sie s c /\
    (forall l, In l ls ->
       locked (locks s2 l) = 0 /\ cpu (locks s2 l) = None /\
       name (locks s2 l) = name (locks s l)) /\
    (forall l, ~ In l ls -> locks s2 l = locks s l).
Proof.
  intros Hnd Hp Hfree H0.
  destruct (acquire_all_run c ls s Hnd Hfree) as (s1 & R1 & N1 & E1 & A1 & K1 & Fr1); [lia|].
  assert (Hheld : forall l, In l ls -> holds l c s1 = true).
  { intros l Hin. eapply holds_of_record. apply K1. assumption. }
  assert (Hlen : List.length ls' = List.length ls) by (symmetry; apply Permutation_length; assumption).
  assert (Hne : ls' <> [] -> ls <> []).
  { intros H ->. apply Permutation_nil in Hp. contradiction. }
  destruct (release_all_run c ls' s1) as (s2 & R2 & N2 & A2 & E2 & K2 & Fr2).
  { eapply Permutation_NoDup; eassumption. }
  { intros l Hin. apply Hheld. eapply Permutation_in; [apply Permutation_sym|]; eassumption. }
  { rewrite Hlen, N1, H0. lia. }
  { intros H. apply E1. auto. }
  assert (N2' : noff (cpus s2 c) = 0) by (rewrite N2, Hlen, N1, H0; lia).
  exists s1, s2. split; [assumption|]. split; [rewrite N1, H0; lia|].
  split; [assumption|]. split; [assumption|]. split; [assumption|]. split; [assumption|].
  split.
  { destruct ls' as [|l0 ls0].
    - apply Permutation_sym, Permutation_nil in Hp. subst ls.
      destruct (returns_det _ _ _ _ _ _ _ _ R1 (returns_Ret _ _ tt s)) as [_ ->].
      destruct (returns_det _ _ _ _ _ _ _ _ R2 (returns_Ret _ _ tt s)) as [_ ->].
      reflexivity.
    - assert (Ha : ambient c s2 = intena (cpus s1 c)) by (apply A2; discriminate).
      unfold ambient in Ha, A1. rewrite N2' in Ha. cbn in Ha.
      rewrite H0 in A1. cbn in A1.
      assert (Hn1 : noff (cpus s1 c) <> 0).
      { rewrite N1, H0, <- Hlen. cbn [List.length]. lia. }
      apply Z.eqb_neq in Hn1. rewrite Hn1 in A1. congruence. }
  split.
  { intros l Hin.
    rewrite K2 by (eapply Permutation_in; eassumption). cbn.
    rewrite K1 by assumption. auto. }
  intros l Hn. rewrite Fr2, Fr1; auto.
  intros Hin. apply Hn. eapply Permutation_in; [apply Permutation_sym|]; eassumption.
Qed.

(** Hart 2 takes the locks at 7, 9 and 11 and releases 9 first. *)
Lemma locks_nest_witness :
  exists s1 s2,
    returns (machine 2) (acquire_all [7; 9; 11]) zeroed tt s1 /\
    noff (cpus s1 2) = Z.of_nat (List.length [7; 9; 11]) /\
    (forall l, In l [7; 9; 11] -> holds l 2 s1 = true) /\
    ([7; 9; 11] <> [] -> sie s1 2 = false) /\
    returns (machine 2) (release_all [9; 7; 11]) s1 tt s2 /\
    noff (cpus s2 2) = 0 /\
    sie s2 2 = sie zeroed 2 /\
    (forall l, In l [7; 9; 11] ->
       locked (locks s2 l) = 0 /\ cpu (locks s2 l) = None /\
       name (locks s2 l) = name (locks zeroed l)) /\
    (forall l, ~ In l [7; 9; 11] -> locks s2 l = locks zeroed l).
Proof.
  apply (locks_nest 2 [7; 9; 11] [9; 7; 11] zeroed).
  - repeat constructor; cbn; lia.
  - apply perm_swap.
  - reflexivity.
  - reflexivity.
Defined.

Lemma local_to_refl h o s : local_to h o s s.
Proof. split; auto. Qed.

Ltac local_solve :=
  lazymatch goal with
  | |- local_to _ _ _ _ =>
      first
        [ apply local_to_refl
        | try match goal with
              | H : local_to _ _ _ _ |- _ => destruct H as [?Hc ?Hl]
              end;
          split;
          [ intros c' Hne;
            cbn [cpus sie locks set_sie set_noff set_intena set_locked set_cpu set_name];
            rewrite ?upd_other by auto; auto
          | intros l' Hne; cbn [op_lock] in Hne;
            cbn [cpus sie locks set_sie set_noff set_intena set_locked set_cpu set_name];
            rewrite ?upd_other by congruence; auto ] ]
  end.

Lemma spin_keeps h lk R (k : unit -> prog kernE R) (P : state -> Prop) :
  (forall s, P s -> P (set_locked lk 1 s)) ->
  (forall s, P s -> always (machine h) (k tt) s P) ->
  forall s, P s -> always (machine h) (ITree.bind (spin lk) k) s P.
Proof.
  intros Hw Hk s Hs n. revert s Hs.
  induction n as [n IH] using lt_wf_ind. intros s Hs.
  rewrite exec_bind_spin. destruct n as [|n]; [exact Hs|].
  rewrite exec_bind_call, world_of_emit. msimpl.
  destruct (locked (locks s lk) =? 0) eqn:E.
  - apply Hk. auto.
  - destruct n as [|n]; [exact (Hw _ Hs)|]. rewrite exec_Tau. apply IH; [lia | auto].
Qed.

(** X13. A call of any of the six functions on hart [h] stays local: at
    every point of its run, finished or not, the records and interrupt
    bits of all other harts and every lock other than the one the call
    may write ([initlock], [acquire] and [release] write their argument;
    [holding], [push_off] and [pop_off] write no lock) are as they were
    when the call began. *)
Theorem calls_are_local (h : hartid) (o : op) (s : state) :
  always (machine h) (op_call o) s (local_to h o s).
Proof.
  destruct o as [l nm|l|l|l| |]; cbn [op_call].
  - unfold initlock. repeat astep; local_solve.
  - unfold acquire, push_off, holding. repeat astep; try local_solve.
    all: try (apply spin_keeps;
              [ intros s' Hs'; local_solve
              | intros s' Hs'; repeat astep; local_solve
              | local_solve ]).
  - unfold release, holding, pop_off. repeat astep; try local_solve.
  - unfold holding. repeat astep; try local_solve.
  - unfold push_off. repeat astep; local_solve.
  - unfold pop_off. repeat astep; local_solve.
Qed.

(* ===================================================================== *)
(** * Further properties: timer setup and start *)
(* ===================================================================== *)

(** The run of [timerinit], with everything it leaves behind. *)
Lemma timerinit_run (p : platform) (me : hartid) (s : mstate) :
  0 <= me < 2 ^ 31 ->
  exists s' l, exec (boot_machine me) 20 (timerinit p) s = Done tt s' l /\
    mem s' = upd (mem s) (CLINT_MTIMECMP p me) (to_uint64 (mem s (CLINT_MTIME p) + 1000000)) /\
    timer_scratch s' =
      upd (upd (timer_scratch s) me (upd (timer_scratch s me) 3 (CLINT_MTIMECMP p me))) me
          (upd (upd (timer_scratch s me) 3 (CLINT_MTIMECMP p me)) 4 1000000) /\
    csrs s' mscratch = timer_scratch_at p me /\
    csrs s' mtvec = timervec p /\
    csrs s' mstatus = Z.lor (csrs s mstatus) (MSTATUS_MIE p) /\
    csrs s' mie = Z.lor (csrs s mie) (MIE_MTIE p).
Proof.
  intros Hme. eexists. eexists. split.
  - unfold timerinit. cbv zeta.
    rewrite exec_bind_call; cbn [boot_machine fst snd mem timer_scratch csrs].
    rewrite (to_int_small me Hme).
    repeat bstep. reflexivity.
  - cbn [mem timer_scratch csrs csr_eqb]. rewrite ?upd_same. repeat split.
Qed.

Lemma timerinit_returns (p : platform) (me : hartid) (s s' : mstate) l :
  exec (boot_machine me) 20 (timerinit p) s = Done tt s' l ->
  returns (boot_machine me) (timerinit p) s tt s'.
Proof. intros E. exists l. apply yields_intro with (n := 20%nat); [exact E | exact I]. Qed.

(** X14. [timerinit] writes nothing but what it is meant to set up: of
    memory only the comparator register of its own hart changes, and of
    the scratch array only slots 3 and 4 of its own row, so that slots 0
    to 2, which [timervec] uses to save registers, and the rows of all
    other harts are as they were. *)
Theorem timerinit_frame (p : platform) (me : hartid) (s : mstate) :
  0 <= me < 2 ^ 31 ->
  exists s', returns (boot_machine me) (timerinit p) s tt s' /\
    (forall a, a <> CLINT_MTIMECMP p me -> mem s' a = mem s a) /\
    (forall id i, id <> me -> timer_scratch s' id i = timer_scratch s id i) /\
    (forall i, i <> 3 -> i <> 4 -> timer_scratch s' me i = timer_scratch s me i).
Proof.
  intros Hme.
  destruct (timerinit_run p me s Hme) as (s' & l & E & M & T & _).
  exists s'. split; [eapply timerinit_returns; eassumption|].
  rewrite M, T. split; [|split].
  - intros a Ha. apply upd_other. assumption.
  - intros id i Hid. rewrite !upd_other by assumption. reflexivity.
  - intros i H3 H4. rewrite upd_same, !upd_other by assumption. reflexivity.
Qed.

(** Hart 1 of the QEMU board. *)
Lemma timerinit_frame_witness :
  exists s', returns (boot_machine 1) (timerinit qemu_virt) at_reset tt s' /\
    (forall a, a <> CLINT_MTIMECMP qemu_virt 1 -> mem s' a = mem at_reset a) /\
    (forall id i, id <> 1 -> timer_scratch s' id i = timer_scratch at_reset id i) /\
    (forall i, i <> 3 -> i <> 4 -> timer_scratch s' 1 i = timer_scratch at_reset 1 i).
Proof.
  apply (timerinit_frame qemu_virt 1 at_reset). lia.
Defined.

(** X15. After [timerinit] the scratch register of the hart holds the
    address of its own scratch row and the trap vector that of
    [timervec]; in [mstatus] and in [mie] every bit of the enable mask is
    set and every other bit is as it was. *)
Theorem timerinit_registers (p : platform) (me : hartid) (s : mstate) :
  0 <= me < 2 ^ 31 ->
  exists s', returns (boot_machine me) (timerinit p) s tt s' /\
    csrs s' mscratch = timer_scratch_at p me /\
    csrs s' mtvec = timervec p /\
    (forall i, Z.testbit (csrs s' mstatus) i =
               Z.testbit (csrs s mstatus) i || Z.testbit (MSTATUS_MIE p) i) /\
    (forall i, Z.testbit (csrs s' mie) i =
               Z.testbit (csrs s mie) i || Z.testbit (MIE_MTIE p) i).
Proof.
  intros Hme.
  destruct (timerinit_run p me s Hme) as (s' & l & E & _ & _ & R1 & R2 & R3 & R4).
  exists s'. split; [eapply timerinit_returns; eassumption|].
  rewrite R1, R2, R3, R4. repeat split; intros i; apply Z.lor_spec.
Qed.

Lemma timerinit_registers_witness :
  exists s', returns (boot_machine 1) (timerinit qemu_virt) at_reset tt s' /\
    csrs s' mscratch = timer_scratch_at qemu_virt 1 /\
    csrs s' mtvec = timervec qemu_virt /\
    (forall i, Z.testbit (csrs s' mstatus) i =
               Z.testbit (csrs at_reset mstatus) i || Z.testbit (MSTATUS_MIE qemu_virt) i) /\
    (forall i, Z.testbit (csrs s' mie) i =
               Z.testbit (csrs at_reset mie) i || Z.testbit (MIE_MTIE qemu_virt) i).
Proof.
  apply (timerinit_registers qemu_virt 1 at_reset). lia.
Defined.

(** X16. When the timer count is within the interval of the top of the
    64-bit range, the sum wraps: the comparator is programmed with the
    count plus 1000000 minus 2^64, a value below the interval and below
    the count itself. *)
Theorem timerinit_wraps (p : platform) (me : hartid) (s : mstate) :
  0 <= me < 2 ^ 31 ->
  2 ^ 64 - 1000000 <= mem s (CLINT_MTIME p) < 2 ^ 64 ->
  exists s', returns (boot_machine me) (timerinit p) s tt s' /\
    mem s' (CLINT_MTIMECMP p me) = mem s (CLINT_MTIME p) + 1000000 - 2 ^ 64 /\
    0 <= mem s' (CLINT_MTIMECMP p me) < 1000000 /\
    mem s' (CLINT_MTIMECMP p me) < mem s (CLINT_MTIME p).
Proof.
  intros Hme Ht.
  destruct (timerinit_run p me s Hme) as (s' & l & E & M & _).
  exists s'. split; [eapply timerinit_returns; eassumption|].
  rewrite M, upd_same. unfold to_uint64.
  assert (H : (mem s (CLINT_MTIME p) + 1000000) mod 2 ^ 64 =
              mem s (CLINT_MTIME p) + 1000000 - 2 ^ 64).
  { symmetry. apply (Z.mod_unique _ _ 1); lia. }
  rewrite H. lia.
Qed.

(** Hart 1 of the QEMU board, the timer one tick below the top. *)
Lemma timerinit_wraps_witness :
  exists s',
    returns (boot_machine 1) (timerinit qemu_virt)
            (mkMstate (fun _ => 2 ^ 64 - 1) (fun _ _ => 0) (fun _ => 0)) tt s' /\
    mem s' (CLINT_MTIMECMP qemu_virt 1) = (2 ^ 64 - 1) + 1000000 - 2 ^ 64 /\
    0 <= mem s' (CLINT_MTIMECMP qemu_virt 1) < 1000000 /\
    mem s' (CLINT_MTIMECMP qemu_virt 1) < 2 ^ 64 - 1.
Proof.
  apply (timerinit_wraps qemu_virt 1
           (mkMstate (fun _ => 2 ^ 64 - 1) (fun _ _ => 0) (fun _ => 0))).
  - lia.
  - cbn. lia.
Defined.

(** A function over the primitives of [timerinit], called from [start],
    runs as it does on its own machine; the further registers stand. *)
Lemma exec_lift (me : hartid) R : forall n (t : prog bootE R) (s : sstate),
  match exec (boot_machine me) n t (base s) with
  | Done r m _ => exists l, exec (start_machine me) n (lift t) s = Done r (mkSstate m (regs s)) l
  | Panicked msg m _ =>
      exists l, exec (start_machine me) n (lift t) s = Panicked msg (mkSstate m (regs s)) l
  | Running m _ => exists l, exec (start_machine me) n (lift t) s = Running (mkSstate m (regs s)) l
  end.
Proof.
  induction n as [|n IH]; intros t s.
  - cbn. exists []. destruct s; reflexivity.
  - rewrite !exec_S.
    change (observe (lift t)) with
      (observe (translateF
         (fun T (e : (bootE +' panicE) T) =>
            match e return (startE +' panicE) T with
            | inl1 b => inl1 (inl1 b)
            | inr1 q => inr1 q
            end) (fun t' => lift t') (observe t))).
    destruct (observe t) as [r|t'|X e k]; cbn.
    + exists []. destruct s; reflexivity.
    + apply IH.
    + destruct e as [b|q]; cbn.
      * destruct (boot_machine me X b (base s)) as [x m] eqn:E.
        specialize (IH (k x) (mkSstate m (regs s))). cbn [base regs] in IH.
        destruct (exec (boot_machine me) n (k x) m); destruct IH as [l' ->];
          eexists; reflexivity.
      * destruct q. exists []. destruct s; reflexivity.
Qed.

Lemma ends_one A (m : A) : exists l, [m] = l ++ [m].
Proof. exists []. reflexivity. Qed.

Lemma ends_cons A (e m : A) X : (exists l, X = l ++ [m]) -> exists l, e :: X = l ++ [m].
Proof. intros [l ->]. exists (e :: l). reflexivity. Qed.

Lemma ends_app A (m : A) lt X : (exists l, X = l ++ [m]) -> exists l, lt ++ X = l ++ [m].
Proof. intros [l ->]. exists (lt ++ l). apply app_assoc. Qed.

Ltac sstep :=
  first
    [ rewrite exec_bind_bind
    | rewrite exec_bind_Ret
    | rewrite exec_bind_call; cbn [start_machine boot_machine fst snd base regs mem timer_scratch csrs]
    | rewrite exec_call; cbn [start_machine boot_machine fst snd base regs mem timer_scratch csrs]
    | rewrite exec_Ret ].

(** The run of [start], with everything it leaves behind. *)
Lemma start_run (k : boot_consts) (p : platform) (me : hartid) (s : sstate) :
  0 <= me < 2 ^ 31 ->
  exists s' log, exec (start_machine me) 40 (start k p) s = Done tt s' log /\
    (exists l, log = l ++ [Event (inr1 Mret : startE unit) tt]) /\
    csrs (base s') mstatus =
      Z.lor (Z.lor (Z.land (csrs (base s) mstatus) (Z.lnot (MSTATUS_MPP_MASK k)))
                   (MSTATUS_MPP_S k)) (MSTATUS_MIE p) /\
    regs s' mepc = main k /\ regs s' satp = 0 /\
    regs s' medeleg = 0xffff /\ regs s' mideleg = 0xffff /\
    regs s' s_ie = Z.lor (Z.lor (Z.lor (regs s s_ie) (SIE_SEIE k)) (SIE_STIE k)) (SIE_SSIE k) /\
    regs s' pmpaddr0 = 0x3fffffffffffff /\ regs s' pmpcfg0 = 0xf /\
    regs s' tp = me /\
    mem (base s') =
      upd (mem (base s)) (CLINT_MTIMECMP p me)
          (to_uint64 (mem (base s) (CLINT_MTIME p) + 1000000)) /\
    timer_scratch (base s') me 3 = CLINT_MTIMECMP p me /\
    timer_scratch (base s') me 4 = 1000000 /\
    csrs (base s') mscratch = timer_scratch_at p me /\
    csrs (base s') mtvec = timervec p /\
    csrs (base s') mie = Z.lor (csrs (base s) mie) (MIE_MTIE p).
Proof.
  intros Hme. unfold start. cbv zeta.
  do 10 sstep.
  match goal with
  | |- context [exec _ 30 (ITree.bind (lift (timerinit p)) ?K) ?S0] =>
      pose proof (exec_lift me unit 20 (timerinit p) S0) as L;
      destruct (timerinit_run p me (base S0) Hme) as (m & lt & E & M & T & R1 & R2 & R3 & R4);
      rewrite E in L; destruct L as [lt' L];
      change 30%nat with (20 + 10)%nat;
      rewrite (exec_bind_Done _ _ _ (lift (timerinit p)) K 20 10 S0 tt _ lt' L)
  end.
  - repeat sstep. rewrite (to_int_small me Hme).
    eexists. eexists. split; [reflexivity|].
    cbn [base regs sreg_eqb emit app]. cbn [base regs mem csrs csr_eqb] in M, T, R1, R2, R3, R4.
    split.
    { repeat first [apply ends_one | apply ends_cons | apply ends_app]. }
    rewrite M, T, R1, R2, R3, R4. rewrite !upd_same.
    rewrite upd_other by discriminate. rewrite upd_same.
    repeat split. unfold to_uint64. apply Z.mod_small. lia.
  - repeat sstep. exact I.
Qed.

Lemma mpp_field (x M S E : Z) :
  Z.land S M = S -> Z.land E M = 0 ->
  Z.land (Z.lor (Z.lor (Z.land x (Z.lnot M)) S) E) M = S.
Proof.
  intros HS HE. apply Z.bits_inj'. intros n Hn.
  apply (f_equal (fun z => Z.testbit z n)) in HS, HE.
  rewrite Z.land_spec in HS, HE. rewrite Z.bits_0 in HE.
  rewrite Z.land_spec, !Z.lor_spec, Z.land_spec, Z.lnot_spec by assumption.
  destruct (Z.testbit x n), (Z.testbit M n), (Z.testbit S n), (Z.testbit E n);
    cbn in *; congruence.
Qed.

Lemma lor_covers (x E : Z) : Z.land (Z.lor x E) E = E.
Proof.
  apply Z.bits_inj'. intros n Hn. rewrite Z.land_spec, Z.lor_spec.
  destruct (Z.testbit x n), (Z.testbit E n); reflexivity.
Qed.

(** X17. [start] returns, and its last act is [mret].  At that point the
    previous-privilege field of [mstatus] holds the supervisor value, also
    after [timerinit] has rewritten [mstatus] in between, [mepc] holds the
    address of [main], paging is off, exceptions and interrupts are
    delegated, the protection registers open all of memory, and [tp]
    holds the hart's identifier. *)
Theorem start_hands_over (k : boot_consts) (p : platform) (me : hartid) (s : sstate) :
  0 <= me < 2 ^ 31 ->
  Z.land (MSTATUS_MPP_S k) (MSTATUS_MPP_MASK k) = MSTATUS_MPP_S k ->
  Z.land (MSTATUS_MIE p) (MSTATUS_MPP_MASK k) = 0 ->
  exists s' l,
    yields (start_machine me) (start k p) s
           (Done tt s' (l ++ [Event (inr1 Mret : startE unit) tt])) /\
    Z.land (csrs (base s') mstatus) (MSTATUS_MPP_MASK k) = MSTATUS_MPP_S k /\
    regs s' mepc = main k /\
    regs s' satp = 0 /\
    regs s' medeleg = 0xffff /\ regs s' mideleg = 0xffff /\
    regs s' pmpaddr0 = 0x3fffffffffffff /\ regs s' pmpcfg0 = 0xf /\
    regs s' tp = me.
Proof.
  intros Hme HS HE.
  destruct (start_run k p me s Hme)
    as (s' & log & E & [l ->] & St & R1 & R2 & R3 & R4 & _ & R6 & R7 & R8 & _).
  exists s', l. split.
  { apply yields_intro with (n := 40%nat); [exact E | exact I]. }
  rewrite St. split; [apply mpp_field; assumption|]. repeat split; assumption.
Qed.

(** Hart 1 of the QEMU board, out of reset. *)
Lemma start_hands_over_witness :
  exists s' l,
    yields (start_machine 1) (start riscv_consts qemu_virt) cold
           (Done tt s' (l ++ [Event (inr1 Mret : startE unit) tt])) /\
    Z.land (csrs (base s') mstatus) (MSTATUS_MPP_MASK riscv_consts) =
      MSTATUS_MPP_S riscv_consts /\
    regs s' mepc = main riscv_consts /\
    regs s' satp = 0 /\
    regs s' medeleg = 0xffff /\ regs s' mideleg = 0xffff /\
    regs s' pmpaddr0 = 0x3fffffffffffff /\ regs s' pmpcfg0 = 0xf /\
    regs s' tp = 1.
Proof.
  apply (start_hands_over riscv_consts qemu_virt 1 cold).
  - lia.
  - reflexivity.
  - reflexivity.
Defined.

(** X18. [start] only adds to the interrupt enables: after it every bit
    of [sie] that was set is still set, the three supervisor enable bits
    are set, and no other bit is; and outside the previous-privilege field
    [mstatus] has the bits it had, with the machine interrupt enable added
    by [timerinit]. *)
Theorem start_keeps_bits (k : boot_consts) (p : platform) (me : hartid) (s : sstate) :
  0 <= me < 2 ^ 31 ->
  Z.land (MSTATUS_MPP_S k) (MSTATUS_MPP_MASK k) = MSTATUS_MPP_S k ->
  exists s', returns (start_machine me) (start k p) s tt s' /\
    (forall i, Z.testbit (regs s' s_ie) i =
               Z.testbit (regs s s_ie) i || Z.testbit (SIE_SEIE k) i ||
               Z.testbit (SIE_STIE k) i || Z.testbit (SIE_SSIE k) i) /\
    (forall i, 0 <= i -> Z.testbit (MSTATUS_MPP_MASK k) i = false ->
               Z.testbit (csrs (base s') mstatus) i =
               Z.testbit (csrs (base s) mstatus) i || Z.testbit (MSTATUS_MIE p) i).
Proof.
  intros Hme HS.
  destruct (start_run k p me s Hme)
    as (s' & log & E & _ & St & _ & _ & _ & _ & R5 & _).
  exists s'. split.
  { exists log. apply yields_intro with (n := 40%nat); [exact E | exact I]. }
  rewrite St, R5. split.
  - intros i. rewrite !Z.lor_spec. reflexivity.
  - intros i Hi HM. apply (f_equal (fun z => Z.testbit z i)) in HS.
    rewrite Z.land_spec, HM, andb_false_r in HS.
    rewrite !Z.lor_spec, Z.land_spec, Z.lnot_spec, HM, <- HS by assumption.
    cbn. rewrite andb_true_r, orb_false_r. reflexivity.
Qed.

Lemma start_keeps_bits_witness :
  exists s', returns (start_machine 1) (start riscv_consts qemu_virt) cold tt s' /\
    (forall i, Z.testbit (regs s' s_ie) i =
               Z.testbit (regs cold s_ie) i || Z.testbit (SIE_SEIE riscv_consts) i ||
               Z.testbit (SIE_STIE riscv_consts) i || Z.testbit (SIE_SSIE riscv_consts) i) /\
    (forall i, 0 <= i -> Z.testbit (MSTATUS_MPP_MASK riscv_consts) i = false ->
               Z.testbit (csrs (base s') mstatus) i =
               Z.testbit (csrs (base cold) mstatus) i ||
               Z.testbit (MSTATUS_MIE qemu_virt) i).
Proof.
  apply (start_keeps_bits riscv_consts qemu_virt 1 cold).
  - lia.
  - reflexivity.
Defined.

(** X19. The timer setup survives the rest of [start]: when [start]
    returns, the comparator of the hart holds the count plus the interval
    in 64-bit arithmetic, slots 3 and 4 of its scratch row, [mscratch] and
    [mtvec] are as [timerinit] set them, and the enable bits of [mstatus]
    and [mie] are set. *)
Theorem start_programs_timer (k : boot_consts) (p : platform) (me : hartid) (s : sstate) :
  0 <= me < 2 ^ 31 ->
  exists s', returns (start_machine me) (start k p) s tt s' /\
    mem (base s') (CLINT_MTIMECMP p me) =
      to_uint64 (mem (base s) (CLINT_MTIME p) + 1000000) /\
    timer_scratch (base s') me 3 = CLINT_MTIMECMP p me /\
    timer_scratch (base s') me 4 = 1000000 /\
    csrs (base s') mscratch = timer_scratch_at p me /\
    csrs (base s') mtvec = timervec p /\
    Z.land (csrs (base s') mstatus) (MSTATUS_MIE p) = MSTATUS_MIE p /\
    Z.land (csrs (base s') mie) (MIE_MTIE p) = MIE_MTIE p.
Proof.
  intros Hme.
  destruct (start_run k p me s Hme)
    as (s' & log & E & _ & St & _ & _ & _ & _ & _ & _ & _ & _ & M & T3 & T4 & C1 & C2 & C3).
  exists s'. split.
  { exists log. apply yields_intro with (n := 40%nat); [exact E | exact I]. }
  rewrite M, upd_same, St, C3. repeat split; try assumption; apply lor_covers.
Qed.

Lemma start_programs_timer_witness :
  exists s', returns (start_machine 1) (start riscv_consts qemu_virt) cold tt s' /\
    mem (base s') (CLINT_MTIMECMP qemu_virt 1) =
      to_uint64 (mem (base cold) (CLINT_MTIME qemu_virt) + 1000000) /\
    timer_scratch (base s') 1 3 = CLINT_MTIMECMP qemu_virt 1 /\
    timer_scratch (base s') 1 4 = 1000000 /\
    csrs (base s') mscratch = timer_scratch_at qemu_virt 1 /\
    csrs (base s') mtvec = timervec qemu_virt /\
    Z.land (csrs (base s') mstatus) (MSTATUS_MIE qemu_virt) = MSTATUS_MIE qemu_virt /\
    Z.land (csrs (base s') mie) (MIE_MTIE qemu_virt) = MIE_MTIE qemu_virt.
Proof.
  apply (start_programs_timer riscv_consts qemu_virt 1 cold). lia.
Defined.

(* ===================================================================== *)
(** * Further properties: the interrupt discipline *)
(* ===================================================================== *)

(* One rule of [always]; a test is split with its equation kept. *)
Ltac dstep :=
  first
    [ apply always_bind_panic
    | apply always_panic
    | apply always_bind_call; [| cbn [machine fst snd]]
    | apply always_call; [| cbn [machine fst snd]]
    | apply always_bind_Ret
    | apply always_Ret
    | apply always_bind_bind
    | match goal with
      | |- always _ (ITree.bind (if ?b then _ else _) _) _ _ => destruct b eqn:?
      | |- always _ (if ?b then _ else _) _ _ => destruct b eqn:?
      end ].

Ltac disc_solve :=
  lazymatch goal with
  | |- disciplined _ _ =>
      first
        [ assumption
        | repeat match goal with
                 | H : disciplined _ _ |- _ => destruct H as [?Hd ?Hi]
                 | H : (_ <? _) = false |- _ => apply Z.ltb_ge in H
                 | H : (_ =? _) = false |- _ => apply Z.eqb_neq in H
                 | H : (_ =? _) = true |- _ => apply Z.eqb_eq in H
                 end;
          unfold disciplined;
          cbn [cpus sie locks noff intena set_sie set_noff set_intena
               set_locked set_cpu set_name] in *;
          rewrite ?upd_same in *; cbn [noff intena] in *;
          split; [lia | intros; first [reflexivity | lia | auto with zarith]] ]
  end.

(** X20. The interrupt discipline is an invariant of all six functions:
    started on a hart whose nesting depth is a non-negative [int] below
    the largest and whose interrupts are off if the depth is positive, a
    call keeps the depth a non-negative [int] and the interrupts off
    while it is positive, at every point of its run, whether it returns,
    panics or spins. *)
Theorem interrupts_off_while_nested (h : hartid) (o : op) (s : state) :
  disciplined h s ->
  noff (cpus s h) < 2 ^ 31 - 1 ->
  always (machine h) (op_call o) s (disciplined h).
Proof.
  intros D B. destruct o as [l nm|l|l|l| |]; cbn [op_call].
  - unfold initlock. repeat dstep; disc_solve.
  - unfold acquire, push_off, holding. repeat dstep; try disc_solve.
    all: try (apply spin_keeps;
              [intros s' Hs'; disc_solve | intros s' Hs'; repeat dstep; disc_solve | disc_solve]).
  - unfold release, holding, pop_off. repeat dstep; try disc_solve.
  - unfold holding. repeat dstep; try disc_solve.
  - unfold push_off. repeat dstep; disc_solve.
  - unfold pop_off. repeat dstep; disc_solve.
Qed.

(** Hart 2, which holds the lock at 7 at depth one, takes the lock
    at 9. *)
Lemma interrupts_off_while_nested_witness :
  disciplined 2 held_by_2 /\
  always (machine 2) (op_call (Acquire 9)) held_by_2 (disciplined 2).
Proof.
  assert (D : disciplined 2 held_by_2) by (split; [cbn; lia | reflexivity]).
  split; [exact D|].
  apply (interrupts_off_while_nested 2 (Acquire 9) held_by_2 D). cbn. lia.
Defined.
